(** * Culinary Compass: the two-stage request orchestration of [src/App.jsx]

    The development embeds the state of the [App] component, its two
    asynchronous handlers [handleGetGuide] and [handleGenerateImage], and
    the event loop that interleaves user events with the resolution of the
    outstanding [fetch] calls.  The JavaScript values that travel through
    the handlers (the decoded response bodies, the parsed guide) are kept
    dynamically typed, as the code has them. *)

From Stdlib Require Import String Ascii List ZArith NArith Bool Lia DecimalString.
Import ListNotations.
Local Open Scope string_scope.
Local Set Warnings "-register-all".

(** Closed goals about concrete runs are settled by evaluation. *)
Ltac by_evaluation := vm_compute; reflexivity.

(** ** JavaScript values *)

Module JS.

(** A JSON number literal, kept exactly: [(-1)^neg * mant * 10^exp10]. *)
Record Decimal := { neg : bool; mant : N; exp10 : Z }.

Definition of_nat (n : nat) : Decimal :=
  {| neg := false; mant := N.of_nat n; exp10 := 0%Z |}.

(** The literal denotes the double nearest to it.  That double is zero
    exactly when the magnitude is at most [2^-1075], half of the smallest
    subnormal (a tie goes to the even neighbour, which is zero). *)
Definition rounds_to_zero (d : Decimal) : bool :=
  (mant d =? 0)%N
  || ((exp10 d <? 0)%Z
      && (Z.of_N (mant d) * 2 ^ 1075 <=? 10 ^ (- exp10 d))%Z).

Inductive Value :=
| Undefined
| Null
| Bool (b : bool)
| Number (d : Decimal)
| Str (s : string)
| Array (items : list Value)
| Object (members : list (string * Value)).

(** What the code can throw, as far as [console.error] tells them apart. *)
Inductive Thrown :=
| Error (message : string)
| TypeError
| SyntaxError.

(** The outcome of evaluating an expression inside a [try] block. *)
Inductive Completion (A : Type) :=
| Normal (x : A)
| Throw (e : Thrown).
Arguments Normal {A} x.
Arguments Throw {A} e.

Definition bind {A B} (c : Completion A) (k : A -> Completion B) : Completion B :=
  match c with
  | Normal x => k x
  | Throw e => Throw e
  end.

Notation "x <- c ;; k" := (bind c (fun x => k))
  (at level 61, c at next level, right associativity).

(** [!!v] *)
Definition truthy (v : Value) : bool :=
  match v with
  | Undefined | Null => false
  | Bool b => b
  | Number d => negb (rounds_to_zero d)
  | Str s => negb (String.eqb s "")
  | Array _ | Object _ => true
  end.

(** An object built by [JSON.parse] keeps, for a repeated key, the value
    of its last occurrence. *)
Definition own (k : string) (members : list (string * Value)) : option Value :=
  fold_left (fun acc kv => if String.eqb (fst kv) k then Some (snd kv) else acc)
            members None.

Definition or_undefined (o : option Value) : Value :=
  match o with Some v => v | None => Undefined end.

Definition first_char (s : string) : Value :=
  match s with
  | EmptyString => Undefined
  | String c _ => Str (String c EmptyString)
  end.

(** [v.k] for an identifier [k] (none of the identifiers the source reads
    is an array index or a member of a built-in prototype other than
    [length]).  The length of a string is counted in bytes here, which is
    zero exactly when the count in code units is. *)
Definition get (v : Value) (k : string) : Completion Value :=
  match v with
  | Undefined | Null => Throw TypeError
  | Object ms => Normal (or_undefined (own k ms))
  | Array l =>
      Normal (if String.eqb k "length" then Number (of_nat (List.length l))
              else Undefined)
  | Str s =>
      Normal (if String.eqb k "length" then Number (of_nat (String.length s))
              else Undefined)
  | Bool _ | Number _ => Normal Undefined
  end.

(** [v[0]] *)
Definition get0 (v : Value) : Completion Value :=
  match v with
  | Undefined | Null => Throw TypeError
  | Object ms => Normal (or_undefined (own "0" ms))
  | Array l => Normal (or_undefined (hd_error l))
  | Str s => Normal (first_char s)
  | Bool _ | Number _ => Normal Undefined
  end.

Definition nullish (v : Value) : bool :=
  match v with
  | Undefined | Null => true
  | _ => false
  end.

(** [v?.k] and [v?.[0]]: a nullish base gives [undefined] and never throws. *)
Definition opt_get (v : Value) (k : string) : Value :=
  match get v k with
  | Normal x => x
  | Throw _ => Undefined
  end.

Definition opt_get0 (v : Value) : Value :=
  match get0 v with
  | Normal x => x
  | Throw _ => Undefined
  end.

End JS.

(** ** [JSON.parse] *)

Module JSON.
Import JS.

Inductive Token :=
| TLBrace | TRBrace | TLBracket | TRBracket | TColon | TComma
| TStr (s : string)
| TNum (d : Decimal)
| TTrue | TFalse | TNull.

Inductive NumPhase :=
| NMinus | NZero | NInt | NDot | NFrac | NExp | NExpSign | NExpDigits.

Record NumAcc := {
  n_neg : bool;
  n_mant : N;
  n_frac : N;
  n_eneg : bool;
  n_exp : N
}.

Inductive LexState :=
| LIdle
| LString (acc : list ascii)
| LEscape (acc : list ascii)
| LUnicode (acc : list ascii) (seen : nat) (code : N)
| LWord (rest : list ascii) (t : Token)
| LNumber (p : NumPhase) (a : NumAcc).

Definition code (c : ascii) : N := N_of_ascii c.

Definition digit (c : ascii) : option N :=
  let n := code c in
  if ((48 <=? n) && (n <=? 57))%N then Some (n - 48)%N else None.

Definition hex (c : ascii) : option N :=
  let n := code c in
  if ((48 <=? n) && (n <=? 57))%N then Some (n - 48)%N
  else if ((65 <=? n) && (n <=? 70))%N then Some (n - 55)%N
  else if ((97 <=? n) && (n <=? 102))%N then Some (n - 87)%N
  else None.

Definition byte (n : N) : ascii := ascii_of_N n.

(** A UTF-16 code unit below [0x10000] as UTF-8 bytes.  An escaped
    surrogate pair so becomes two three-byte groups, where the same
    character written raw is one four-byte group: the model tells the two
    spellings apart, which no key or emptiness test of the source sees. *)
Definition utf8 (cu : N) : list ascii :=
  if (cu <? 128)%N then [byte cu]
  else if (cu <? 2048)%N then
    [byte (192 + cu / 64); byte (128 + cu mod 64)]
  else
    [byte (224 + cu / 4096); byte (128 + (cu / 64) mod 64); byte (128 + cu mod 64)].

Definition num0 (negative : bool) (m : N) : NumAcc :=
  {| n_neg := negative; n_mant := m; n_frac := 0; n_eneg := false; n_exp := 0 |}.

Definition push_int (a : NumAcc) (d : N) : NumAcc :=
  {| n_neg := n_neg a; n_mant := n_mant a * 10 + d; n_frac := n_frac a;
     n_eneg := n_eneg a; n_exp := n_exp a |}.

Definition push_frac (a : NumAcc) (d : N) : NumAcc :=
  {| n_neg := n_neg a; n_mant := n_mant a * 10 + d; n_frac := n_frac a + 1;
     n_eneg := n_eneg a; n_exp := n_exp a |}.

Definition push_exp (a : NumAcc) (d : N) : NumAcc :=
  {| n_neg := n_neg a; n_mant := n_mant a; n_frac := n_frac a;
     n_eneg := n_eneg a; n_exp := n_exp a * 10 + d |}.

Definition exp_negative (a : NumAcc) : NumAcc :=
  {| n_neg := n_neg a; n_mant := n_mant a; n_frac := n_frac a;
     n_eneg := true; n_exp := n_exp a |}.

Definition finish (a : NumAcc) : Token :=
  TNum {| neg := n_neg a; mant := n_mant a;
          exp10 := ((if n_eneg a then - Z.of_N (n_exp a) else Z.of_N (n_exp a))
                    - Z.of_N (n_frac a))%Z |}.

Definition complete (p : NumPhase) : bool :=
  match p with
  | NZero | NInt | NFrac | NExpDigits => true
  | NMinus | NDot | NExp | NExpSign => false
  end.

Definition quote : ascii := byte 34.
Definition backslash : ascii := byte 92.

Definition is_space (c : ascii) : bool :=
  let n := code c in
  ((n =? 32) || (n =? 9) || (n =? 10) || (n =? 13))%N.

Definition is_e (c : ascii) : bool := ((code c =? 101) || (code c =? 69))%N.

(** A character met between tokens. *)
Definition idle (c : ascii) : option (LexState * list Token) :=
  if is_space c then Some (LIdle, [])
  else if Ascii.eqb c quote then Some (LString [], [])
  else match digit c with
  | Some 0%N => Some (LNumber NZero (num0 false 0), [])
  | Some d => Some (LNumber NInt (num0 false d), [])
  | None =>
    match c with
    | "{"%char => Some (LIdle, [TLBrace])
    | "}"%char => Some (LIdle, [TRBrace])
    | "["%char => Some (LIdle, [TLBracket])
    | "]"%char => Some (LIdle, [TRBracket])
    | ":"%char => Some (LIdle, [TColon])
    | ","%char => Some (LIdle, [TComma])
    | "-"%char => Some (LNumber NMinus (num0 true 0), [])
    | "t"%char => Some (LWord (list_ascii_of_string "rue") TTrue, [])
    | "f"%char => Some (LWord (list_ascii_of_string "alse") TFalse, [])
    | "n"%char => Some (LWord (list_ascii_of_string "ull") TNull, [])
    | _ => None
    end
  end.

(** The number ends before [c]; [c] is then read between tokens. *)
Definition close_number (a : NumAcc) (c : ascii) : option (LexState * list Token) :=
  match idle c with
  | Some (st, ts) => Some (st, finish a :: ts)
  | None => None
  end.

Definition number (p : NumPhase) (a : NumAcc) (c : ascii)
  : option (LexState * list Token) :=
  match p, digit c with
  | NMinus, Some 0%N => Some (LNumber NZero a, [])
  | NMinus, Some d => Some (LNumber NInt (push_int a d), [])
  | NMinus, None => None
  | NZero, _ =>
      if Ascii.eqb c "."%char then Some (LNumber NDot a, [])
      else if is_e c then Some (LNumber NExp a, [])
      else close_number a c
  | NInt, Some d => Some (LNumber NInt (push_int a d), [])
  | NInt, None =>
      if Ascii.eqb c "."%char then Some (LNumber NDot a, [])
      else if is_e c then Some (LNumber NExp a, [])
      else close_number a c
  | NDot, Some d => Some (LNumber NFrac (push_frac a d), [])
  | NDot, None => None
  | NFrac, Some d => Some (LNumber NFrac (push_frac a d), [])
  | NFrac, None =>
      if is_e c then Some (LNumber NExp a, []) else close_number a c
  | NExp, Some d => Some (LNumber NExpDigits (push_exp a d), [])
  | NExp, None =>
      if Ascii.eqb c "+"%char then Some (LNumber NExpSign a, [])
      else if Ascii.eqb c "-"%char then Some (LNumber NExpSign (exp_negative a), [])
      else None
  | NExpSign, Some d => Some (LNumber NExpDigits (push_exp a d), [])
  | NExpSign, None => None
  | NExpDigits, Some d => Some (LNumber NExpDigits (push_exp a d), [])
  | NExpDigits, None => close_number a c
  end.

Definition escape (acc : list ascii) (c : ascii) : option LexState :=
  if Ascii.eqb c quote then Some (LString (quote :: acc))
  else if Ascii.eqb c backslash then Some (LString (backslash :: acc))
  else match c with
  | "/"%char => Some (LString ("/"%char :: acc))
  | "b"%char => Some (LString (byte 8 :: acc))
  | "f"%char => Some (LString (byte 12 :: acc))
  | "n"%char => Some (LString (byte 10 :: acc))
  | "r"%char => Some (LString (byte 13 :: acc))
  | "t"%char => Some (LString (byte 9 :: acc))
  | "u"%char => Some (LUnicode acc 0 0)
  | _ => None
  end.

Definition lex_step (st : LexState) (c : ascii) : option (LexState * list Token) :=
  match st with
  | LIdle => idle c
  | LString acc =>
      if Ascii.eqb c quote then
        Some (LIdle, [TStr (string_of_list_ascii (rev acc))])
      else if Ascii.eqb c backslash then Some (LEscape acc, [])
      else if (code c <? 32)%N then None
      else Some (LString (c :: acc), [])
  | LEscape acc =>
      match escape acc c with
      | Some st' => Some (st', [])
      | None => None
      end
  | LUnicode acc seen cu =>
      match hex c with
      | Some h =>
          let cu' := (cu * 16 + h)%N in
          match seen with
          | 3%nat => Some (LString (rev (utf8 cu') ++ acc), [])
          | _ => Some (LUnicode acc (S seen) cu', [])
          end
      | None => None
      end
  | LWord rest t =>
      match rest with
      | [] => None
      | x :: rest' =>
          if Ascii.eqb c x then
            match rest' with
            | [] => Some (LIdle, [t])
            | _ => Some (LWord rest' t, [])
            end
          else None
      end
  | LNumber p a => number p a c
  end.

Fixpoint lex (st : LexState) (cs : list ascii) (out : list Token)
  : option (list Token) :=
  match cs with
  | [] =>
      match st with
      | LIdle => Some (rev out)
      | LNumber p a => if complete p then Some (rev (finish a :: out)) else None
      | _ => None
      end
  | c :: cs' =>
      match lex_step st c with
      | Some (st', ts) => lex st' cs' (rev ts ++ out)
      | None => None
      end
  end.

(** The enclosing containers of the value being read, innermost first. *)
Inductive Frame :=
| FArray (done : list Value)
| FObject (done : list (string * Value)) (key : string).

Inductive ParseState :=
| PValue (stack : list Frame)
| PArrayOpen (stack : list Frame)
| PObjectOpen (stack : list Frame)
| PArrayNext (stack : list Frame) (done : list Value)
| PObjectNext (stack : list Frame) (done : list (string * Value))
| PKey (stack : list Frame) (done : list (string * Value))
| PColon (stack : list Frame) (done : list (string * Value)) (key : string)
| PDone (v : Value).

(** A value is complete: hand it to the innermost container. *)
Definition reduce (v : Value) (stack : list Frame) : ParseState :=
  match stack with
  | [] => PDone v
  | FArray done :: stack' => PArrayNext stack' (v :: done)
  | FObject done k :: stack' => PObjectNext stack' ((k, v) :: done)
  end.

Definition value_token (stack : list Frame) (t : Token) : option ParseState :=
  match t with
  | TStr s => Some (reduce (Str s) stack)
  | TNum d => Some (reduce (Number d) stack)
  | TTrue => Some (reduce (Bool true) stack)
  | TFalse => Some (reduce (Bool false) stack)
  | TNull => Some (reduce Null stack)
  | TLBracket => Some (PArrayOpen stack)
  | TLBrace => Some (PObjectOpen stack)
  | TRBrace | TRBracket | TColon | TComma => None
  end.

Definition parse_step (st : ParseState) (t : Token) : option ParseState :=
  match st, t with
  | PValue stack, _ => value_token stack t
  | PArrayOpen stack, TRBracket => Some (reduce (Array []) stack)
  | PArrayOpen stack, _ => value_token (FArray [] :: stack) t
  | PObjectOpen stack, TRBrace => Some (reduce (Object []) stack)
  | PObjectOpen stack, TStr k => Some (PColon stack [] k)
  | PObjectOpen _, _ => None
  | PArrayNext stack done, TComma => Some (PValue (FArray done :: stack))
  | PArrayNext stack done, TRBracket => Some (reduce (Array (rev done)) stack)
  | PArrayNext _ _, _ => None
  | PObjectNext stack done, TComma => Some (PKey stack done)
  | PObjectNext stack done, TRBrace => Some (reduce (Object (rev done)) stack)
  | PObjectNext _ _, _ => None
  | PKey stack done, TStr k => Some (PColon stack done k)
  | PKey _ _, _ => None
  | PColon stack done k, TColon => Some (PValue (FObject done k :: stack))
  | PColon _ _ _, _ => None
  | PDone _, _ => None
  end.

Fixpoint parse_tokens (st : ParseState) (ts : list Token) : option Value :=
  match ts with
  | [] => match st with PDone v => Some v | _ => None end
  | t :: ts' =>
      match parse_step st t with
      | Some st' => parse_tokens st' ts'
      | None => None
      end
  end.

(** [JSON.parse(text)] for a string [text]; [None] is the [SyntaxError]. *)
Definition parse (text : string) : option Value :=
  match lex LIdle (list_ascii_of_string text) [] with
  | Some ts => parse_tokens (PValue []) ts
  | None => None
  end.

Definition q (s : string) : string :=
  String quote (s ++ String quote EmptyString).

End JSON.


(** ** The component and its environment *)

Import JS.

(** The six [useState] cells of [App]. *)
Record AppState := {
  location : string;
  guide : Value;
  loading : bool;
  error : option string;
  imageUrl : option string;
  isImageLoading : bool
}.

Definition setLocation (x : string) (s : AppState) : AppState :=
  {| location := x; guide := guide s; loading := loading s; error := error s;
     imageUrl := imageUrl s; isImageLoading := isImageLoading s |}.

Definition setGuide (x : Value) (s : AppState) : AppState :=
  {| location := location s; guide := x; loading := loading s; error := error s;
     imageUrl := imageUrl s; isImageLoading := isImageLoading s |}.

Definition setLoading (x : bool) (s : AppState) : AppState :=
  {| location := location s; guide := guide s; loading := x; error := error s;
     imageUrl := imageUrl s; isImageLoading := isImageLoading s |}.

Definition setError (x : option string) (s : AppState) : AppState :=
  {| location := location s; guide := guide s; loading := loading s; error := x;
     imageUrl := imageUrl s; isImageLoading := isImageLoading s |}.

Definition setImageUrl (x : option string) (s : AppState) : AppState :=
  {| location := location s; guide := guide s; loading := loading s; error := error s;
     imageUrl := x; isImageLoading := isImageLoading s |}.

Definition setIsImageLoading (x : bool) (s : AppState) : AppState :=
  {| location := location s; guide := guide s; loading := loading s; error := error s;
     imageUrl := imageUrl s; isImageLoading := x |}.

(** The two requests the component sends.  Method, headers, the response
    schema and the sample count are the same in every request and are
    left out. *)
Inductive Request :=
| GenerateContent (key : string) (prompt : string)
| Predict (key : string) (prompt : Value).

(** How a [fetch] settles: the promise rejects, or it resolves to a
    response with a status and a body; [body] is what [response.json()]
    resolves to, [None] when it rejects. *)
Inductive FetchResult :=
| Rejected
| Responded (status : N) (body : option Value).

Definition ok (status : N) : bool := ((200 <=? status) && (status <=? 299))%N.

(** The two [console.error] calls. *)
Inductive ConsoleEntry :=
| GuideError (e : Thrown)
| ImageError (e : Thrown).

(** The component together with its environment.  [network] lists the
    requests sent so far, oldest first, and [inflight] the positions in
    it of those that have not settled.  [query] and [guided] are ghost
    state, absent from the code: [query] counts the searches started,
    every request is paired with the search it was sent for, and [guided]
    lists the searches whose guide was accepted. *)
Record World := {
  app : AppState;
  network : list (nat * Request);
  inflight : list nat;
  console : list ConsoleEntry;
  query : nat;
  guided : list nat
}.

Definition update (f : AppState -> AppState) (w : World) : World :=
  {| app := f (app w); network := network w; inflight := inflight w;
     console := console w; query := query w; guided := guided w |}.

Definition fetch (qid : nat) (r : Request) (w : World) : World :=
  {| app := app w; network := network w ++ [(qid, r)];
     inflight := inflight w ++ [List.length (network w)];
     console := console w; query := query w; guided := guided w |}.

Definition settle (i : nat) (w : World) : World :=
  {| app := app w; network := network w;
     inflight := filter (fun j => negb (Nat.eqb j i)) (inflight w);
     console := console w; query := query w; guided := guided w |}.

Definition console_error (c : ConsoleEntry) (w : World) : World :=
  {| app := app w; network := network w; inflight := inflight w;
     console := console w ++ [c]; query := query w; guided := guided w |}.

Definition next_query (w : World) : World :=
  {| app := app w; network := network w; inflight := inflight w;
     console := console w; query := S (query w); guided := guided w |}.

Definition mark_guided (qid : nat) (w : World) : World :=
  {| app := app w; network := network w; inflight := inflight w;
     console := console w; query := query w; guided := qid :: guided w |}.

Definition initial_app : AppState :=
  {| location := ""; guide := Null; loading := false; error := None;
     imageUrl := None; isImageLoading := false |}.

Definition initial : World :=
  {| app := initial_app; network := []; inflight := []; console := [];
     query := 0; guided := [] |}.

Definition empty_query_message : string := "Please enter a country or city.".

Definition guide_failed_message : string :=
  "Could not fetch the guide. The Culinary Compass is recalibrating!".

Definition guide_prompt (loc : string) : string :=
  "Provide a mini culinary guide for " ++ loc ++
  ". I need a list of 3-5 must-try dishes, one etiquette tip, a restaurant suggestion, and a photorealistic image generation prompt for the most iconic dish. Respond in valid JSON.".

Definition decimal (n : N) : string := NilEmpty.string_of_uint (N.to_uint n).

Inductive Event :=
| Change (value : string)
| Submit
| Settle (i : nat) (r : FetchResult).

(** What the module takes from where it runs.  [apiKey] is
    [import.meta.env.VITE_GEMINI_API_KEY], [None] for [undefined].
    [ToString] is ECMAScript's conversion to a string of a value that is
    not a string, [None] when it throws, and [GreaterThanZero] is [v > 0]
    on a value that is not a number, [None] when the conversion to a
    number throws.  The handlers reach the two conversions only on
    responses that do not have the documented shape, and every result
    below holds whatever they return. *)
Record Host := {
  apiKey : option string;
  ToString : Value -> option string;
  GreaterThanZero : Value -> option bool
}.

Section Handlers.

Variable host : Host.

Definition to_string (v : Value) : Completion string :=
  match v with
  | Str s => Normal s
  | _ => match ToString host v with Some s => Normal s | None => Throw TypeError end
  end.

Definition gt0 (v : Value) : Completion bool :=
  match v with
  | Number d => Normal (negb (neg d) && negb (rounds_to_zero d))
  | _ => match GreaterThanZero host v with Some b => Normal b | None => Throw TypeError end
  end.

Definition JSON_parse (text : Value) : Completion Value :=
  s <- to_string text ;;
  match JSON.parse s with
  | Some v => Normal v
  | None => Throw SyntaxError
  end.

(** [!apiKey] *)
Definition key_missing : bool :=
  match apiKey host with
  | None => true
  | Some k => String.eqb k ""
  end.

(** [`${apiKey}`] *)
Definition key_text : string :=
  match apiKey host with
  | None => "undefined"
  | Some k => k
  end.

(** *** [handleGenerateImage] *)

(** Up to the [await fetch]. *)
Definition handleGenerateImage (qid : nat) (imageGenPrompt : Value) (w : World) : World :=
  let w := update (setIsImageLoading true) w in
  let w := update (setImageUrl None) w in
  fetch qid (Predict key_text imageGenPrompt) w.

(** The body of the [try] from the settled [fetch] on: the new image URL,
    or what is thrown. *)
Definition image_try (r : FetchResult) : Completion string :=
  match r with
  | Rejected => Throw TypeError
  | Responded status body =>
      if negb (ok status) then
        Throw (Error ("Image generation failed with status " ++ decimal status))
      else
        match body with
        | None => Throw SyntaxError
        | Some result =>
            predictions <- get result "predictions" ;;
            present <-
              (if truthy predictions then
                 len <- get predictions "length" ;;
                 positive <- gt0 len ;;
                 if positive then
                   first <- get0 predictions ;;
                   bytes <- get first "bytesBase64Encoded" ;;
                   Normal (truthy bytes)
                 else Normal false
               else Normal false) ;;
            if present then
              first <- get0 predictions ;;
              bytes <- get first "bytesBase64Encoded" ;;
              encoded <- to_string bytes ;;
              Normal ("data:image/png;base64," ++ encoded)
            else Throw (Error "Invalid image response structure.")
        end
  end.

(** From the settled [fetch] to the end of [finally]. *)
Definition handleGenerateImage_resume (r : FetchResult) (w : World) : World :=
  let w :=
    match image_try r with
    | Normal newImageUrl => update (setImageUrl (Some newImageUrl)) w
    | Throw err => console_error (ImageError err) w
    end in
  update (setIsImageLoading false) w.

(** *** [handleGetGuide] *)

Definition guide_catch (err : Thrown) (w : World) : World :=
  let w := console_error (GuideError err) w in
  update (setError (Some guide_failed_message)) w.

(** Up to the [await fetch], or to the end when there is nothing to
    await. *)
Definition handleGetGuide (w : World) : World :=
  if String.eqb (location (app w)) "" then
    update (setError (Some empty_query_message)) w
  else
    let w := next_query w in
    let w := update (setLoading true) w in
    let w := update (setError None) w in
    let w := update (setGuide Null) w in
    let w := update (setImageUrl None) w in
    if key_missing then
      update (setLoading false) (guide_catch (Error "API Key is missing.") w)
    else
      fetch (query w) (GenerateContent key_text (guide_prompt (location (app w)))) w.

(** [result.candidates?.[0]?.content?.parts?.[0]?.text] *)
Definition nested_text (result : Value) : Completion Value :=
  candidates <- get result "candidates" ;;
  Normal (opt_get (opt_get0 (opt_get (opt_get (opt_get0 candidates)
                                              "content") "parts")) "text").

(** The body of the [try] from the settled [fetch] up to [JSON.parse]. *)
Definition guide_try (r : FetchResult) : Completion Value :=
  match r with
  | Rejected => Throw TypeError
  | Responded status body =>
      if negb (ok status) then
        Throw (Error ("API request failed with status " ++ decimal status))
      else
        match body with
        | None => Throw SyntaxError
        | Some result =>
            jsonResponseText <- nested_text result ;;
            if negb (truthy jsonResponseText) then
              Throw (Error "Invalid response structure from AI.")
            else JSON_parse jsonResponseText
        end
  end.

(** From the settled [fetch] to the end of [finally]. *)
Definition handleGetGuide_resume (qid : nat) (r : FetchResult) (w : World) : World :=
  let w :=
    match guide_try r with
    | Throw err => guide_catch err w
    | Normal parsedGuide =>
        let w := update (setGuide parsedGuide) w in
        match get parsedGuide "imageGenPrompt" with
        | Throw err => guide_catch err w
        | Normal imageGenPrompt =>
            let w := mark_guided qid w in
            if truthy imageGenPrompt
            then handleGenerateImage qid imageGenPrompt w
            else w
        end
    end in
  update (setLoading false) w.

(** *** The event loop *)

(** One turn of the event loop.  The submit button is [disabled] while
    [loading] holds, so no submit event arrives then (the Enter key
    submits the form through that button).  A request settles
    once, and wakes the handler that sent it.  Between a settled [fetch]
    and the settled [response.json()] the handlers write no state, so the
    two are taken in one turn. *)
Definition step (w : World) (e : Event) : option World :=
  match e with
  | Change value => Some (update (setLocation value) w)
  | Submit => if loading (app w) then None else Some (handleGetGuide w)
  | Settle i r =>
      if existsb (Nat.eqb i) (inflight w) then
        match nth_error (network w) i with
        | Some (qid, GenerateContent _ _) =>
            Some (handleGetGuide_resume qid r (settle i w))
        | Some (qid, Predict _ _) =>
            Some (handleGenerateImage_resume r (settle i w))
        | None => None
        end
      else None
  end.

Fixpoint run (w : World) (es : list Event) : option World :=
  match es with
  | [] => Some w
  | e :: es' =>
      match step w e with
      | Some w' => run w' es'
      | None => None
      end
  end.

Inductive reachable : World -> Prop :=
| reachable_initial : reachable initial
| reachable_step w e w' : reachable w -> step w e = Some w' -> reachable w'.


(** The completion of the whole [try] block of [handleGetGuide] after the
    [fetch]: the accepted guide, or what reaches [catch]. *)
Definition guide_completion (r : FetchResult) : Completion Value :=
  parsedGuide <- guide_try r ;;
  _ <- get parsedGuide "imageGenPrompt" ;;
  Normal parsedGuide.

(** The shapes the world can have once the guide handler has run to its
    end: the requests are as before, or one image request for the same
    search was added. *)
Definition guide_settled (w : World) (i qid : nat) (w' : World) : Prop :=
  loading (app w') = false /\ query w' = query w /\
  location (app w') = location (app w) /\
  ((network w' = network w /\
    inflight w' = filter (fun j => negb (Nat.eqb j i)) (inflight w) /\
    incl (guided w) (guided w'))
   \/
   (exists p,
      network w' = (network w ++ [(qid, Predict key_text p)])%list /\
      inflight w' = (filter (fun j => negb (Nat.eqb j i)) (inflight w)
                       ++ [List.length (network w)])%list /\
      guided w' = qid :: guided w)).

End Handlers.

(** A request is superseded once a later search has started. *)
Definition superseded (w : World) (qid : nat) : Prop := qid < query w.

Definition is_guide_request (x : nat * Request) : bool :=
  match snd x with
  | GenerateContent _ _ => true
  | Predict _ _ => false
  end.

(** What holds in every world the event loop can reach. *)
Record Inv (w : World) : Prop := {
  inv_bound : forall i, In i (inflight w) -> i < List.length (network w);
  inv_query : forall qid r, In (qid, r) (network w) -> qid <= query w;
  inv_guide : forall i x,
      In i (inflight w) -> nth_error (network w) i = Some x ->
      is_guide_request x = true ->
      fst x = query w /\ loading (app w) = true;
  inv_one : forall i j x y,
      In i (inflight w) -> nth_error (network w) i = Some x ->
      is_guide_request x = true ->
      In j (inflight w) -> nth_error (network w) j = Some y ->
      is_guide_request y = true ->
      i = j;
  inv_image : forall qid k p,
      In (qid, Predict k p) (network w) -> In qid (guided w)
}.



(** ** Scenarios *)

(** Responses of the documented shapes. *)
Definition guide_body (text : string) : Value :=
  Object [("candidates",
    Array [Object [("content",
      Object [("parts", Array [Object [("text", Str text)]])])]])].

Definition guide_response (text : string) : FetchResult :=
  Responded 200 (Some (guide_body text)).

Definition image_response (predictions : list Value) : FetchResult :=
  Responded 200 (Some (Object [("predictions", Array predictions)])).

Definition png (encoded : string) : Value :=
  Object [("bytesBase64Encoded", Str encoded)].

Definition member (k v : string) : string := JSON.q k ++ ":" ++ JSON.q v.

(** A guide text with all five fields, for a location, a dish and an
    image prompt. *)
Definition guide_text (place dish prompt : string) : string :=
  "{" ++ member "locationName" place ++ ","
      ++ JSON.q "mustTryDishes" ++ ":[{" ++ member "name" dish ++ ","
      ++ member "description" "A local classic" ++ "}],"
      ++ member "etiquetteTip" "Wait for the host" ++ ","
      ++ member "restaurantSuggestion" "A family kitchen" ++ ","
      ++ member "imageGenPrompt" prompt ++ "}".

(** A host with an API key and one without.  The scenarios never coerce
    a value, so the two conversions can be anything. *)
Definition keyed : Host :=
  {| apiKey := Some "k"; ToString := fun _ => None;
     GreaterThanZero := fun _ => None |}.

Definition keyless : Host :=
  {| apiKey := None; ToString := fun _ => None;
     GreaterThanZero := fun _ => None |}.

Definition play (host : Host) (es : list Event) : option World :=
  run host initial es.

Definition after (host : Host) (es : list Event) : World :=
  match play host es with
  | Some w => w
  | None => initial
  end.

(** Rome is searched and its guide arrives; Kyoto is searched while
    Rome's image is still being generated, and Kyoto's guide arrives. *)
Definition rome_then_kyoto : list Event :=
  [ Change "Rome"; Submit;
    Settle 0 (guide_response (guide_text "Rome" "Carbonara" "A plate of carbonara"));
    Change "Kyoto"; Submit;
    Settle 2 (guide_response (guide_text "Kyoto" "Kaiseki" "A kaiseki tray")) ].

(** Characters that [String.prototype.trim] removes, among the ASCII
    ones. *)
Definition whitespace_only (s : string) : bool :=
  forallb (fun c => let n := N_of_ascii c in
                    ((n =? 32) || ((9 <=? n) && (n <=? 13)))%N)
          (list_ascii_of_string s).

Definition rome_guide : FetchResult :=
  guide_response (guide_text "Rome" "Carbonara" "A plate of carbonara").

(** Rome's guide and image are on display and the input was emptied. *)
Definition rome_shown_input_emptied : World :=
  after keyed
    [ Change "Rome"; Submit; Settle 0 rome_guide;
      Settle 1 (image_response [png "QUJD"]); Change "" ].

(** What Rome's guide text parses to. *)
Definition rome_parsed : Value :=
  Eval vm_compute in
    or_undefined (JSON.parse (guide_text "Rome" "Carbonara" "A plate of carbonara")).

(** ** What the component renders *)

(** The element trees the function components return, with the markup
    and the class names left out and the JavaScript values they embed
    kept as they are. *)

(** [SearchBar]: the controlled input and the submit button. *)
Record SearchBarView := {
  input_value : string;
  button_disabled : bool;
  button_label : string
}.

Definition SearchBar (loc : string) (busy : bool) : SearchBarView :=
  {| input_value := loc;
     button_disabled := busy;
     button_label := if busy then "Exploring..." else "Find Food" |}.

Record ImgView := { img_src : string; img_alt : Value }.

(** One [<li>] of the dish list. *)
Record DishItem := {
  item_key : Value;
  item_name : Value;
  item_description : Value
}.

Record GuideCardView := {
  card_placeholder : bool;
  card_img : option ImgView;
  card_title : Value;
  card_dishes : list DishItem;
  card_etiquette : Value;
  card_restaurant : Value
}.

(** [a || b] *)
Definition js_or (a : Value) (b : Completion Value) : Completion Value :=
  if truthy a then Normal a else b.

Fixpoint traverse {A B} (f : A -> Completion B) (l : list A) : Completion (list B) :=
  match l with
  | [] => Normal []
  | x :: l' =>
      y <- f x ;;
      ys <- traverse f l' ;;
      Normal (y :: ys)
  end.

(** [v.map(f)] for a value that came out of [JSON.parse]: only an array
    has a [map] that can be called. *)
Definition array_map {B} (f : Value -> Completion B) (v : Value) : Completion (list B) :=
  match v with
  | Array items => traverse f items
  | _ => Throw TypeError
  end.

Definition dish_item (dish : Value) : Completion DishItem :=
  k <- get dish "name" ;;
  n <- get dish "name" ;;
  d <- get dish "description" ;;
  Normal {| item_key := k; item_name := n; item_description := d |}.

(** The [<li>] of a dish that is not [null]. *)
Definition shown_dish (d : Value) : DishItem :=
  {| item_key := opt_get d "name"; item_name := opt_get d "name";
     item_description := opt_get d "description" |}.

(** [GuideCard], in the order the expressions of its body are
    evaluated. *)
Definition GuideCard (g : Value) (url : option string) (imageLoading : bool)
  : Completion GuideCardView :=
  image <-
    (match url with
     | None => Normal None
     | Some u =>
         if String.eqb u "" then Normal None
         else
           dishes <- get g "mustTryDishes" ;;
           first <- get0 dishes ;;
           alt <- js_or (opt_get first "name") (get g "locationName") ;;
           Normal (Some {| img_src := u; img_alt := alt |})
     end) ;;
  title <- get g "locationName" ;;
  dishes <- get g "mustTryDishes" ;;
  items <- array_map dish_item dishes ;;
  tip <- get g "etiquetteTip" ;;
  suggestion <- get g "restaurantSuggestion" ;;
  Normal {| card_placeholder := imageLoading; card_img := image;
            card_title := title; card_dishes := items;
            card_etiquette := tip; card_restaurant := suggestion |}.

(** [{guide && <GuideCard ... />}]: the card, or the falsy value
    itself. *)
Inductive CardSlot :=
| Card (c : GuideCardView)
| Bare (v : Value).

Record AppView := {
  view_search : SearchBarView;
  view_banner : option string;
  view_spinner : bool;
  view_card : CardSlot
}.

(** [{error && ...}] *)
Definition banner (err : option string) : option string :=
  match err with
  | Some m => if String.eqb m "" then None else Some m
  | None => None
  end.

(** One render of [App] with the components under it; [Throw] when a
    component throws while rendering. *)
Definition render (s : AppState) : Completion AppView :=
  slot <-
    (if truthy (guide s) then
       c <- GuideCard (guide s) (imageUrl s) (isImageLoading s) ;;
       Normal (Card c)
     else Normal (Bare (guide s))) ;;
  Normal {| view_search := SearchBar (location s) (loading s);
            view_banner := banner (error s);
            view_spinner := loading s;
            view_card := slot |}.

(** ** The response schema *)

(** The shape [handleGetGuide] asks of the service in [responseSchema]:
    an object with the five required fields, the four text fields being
    strings and [mustTryDishes] an array of objects with a string [name]
    and a string [description]. *)
Definition has_string (v : Value) (k : string) : bool :=
  match get v k with
  | Normal (Str _) => true
  | _ => false
  end.

Definition dish_conforms (d : Value) : bool :=
  has_string d "name" && has_string d "description".

Definition guide_conforms (g : Value) : bool :=
  has_string g "locationName"
  && match get g "mustTryDishes" with
     | Normal (Array items) => forallb dish_conforms items
     | _ => false
     end
  && has_string g "etiquetteTip"
  && has_string g "restaurantSuggestion"
  && has_string g "imageGenPrompt".

(** ** More of what holds in every reachable world *)

Definition is_image_request (x : nat * Request) : bool :=
  negb (is_guide_request x).

Definition request_key (r : Request) : string :=
  match r with
  | GenerateContent k _ => k
  | Predict k _ => k
  end.

Definition data_url (u : string) : Prop :=
  exists encoded, u = "data:image/png;base64," ++ encoded.

(** A request of a given kind is in flight. *)
Definition pending (kind : nat * Request -> bool) (w : World) : Prop :=
  exists i x, In i (inflight w) /\ nth_error (network w) i = Some x /\ kind x = true.

Section Invariants.

Variable host : Host.

Record Inv2 (w : World) : Prop := {
  inv_loading :
    loading (app w) = true ->
    guide (app w) = Null /\ error (app w) = None /\ pending is_guide_request w;
  inv_last : forall i x,
    In i (inflight w) -> nth_error (network w) i = Some x ->
    is_guide_request x = true -> S i = List.length (network w);
  inv_image_loading :
    isImageLoading (app w) = true -> pending is_image_request w;
  inv_image_url : forall u,
    imageUrl (app w) = Some u -> isImageLoading (app w) = false /\ data_url u;
  inv_keys : forall qid r,
    In (qid, r) (network w) ->
    key_missing host = false /\ request_key r = key_text host;
  inv_error :
    error (app w) = None \/ error (app w) = Some empty_query_message \/
    error (app w) = Some guide_failed_message;
  inv_pairs : forall j qid k p,
    nth_error (network w) j = Some (qid, Predict k p) ->
    exists j' key text,
      j = S j' /\ nth_error (network w) j' = Some (qid, GenerateContent key text);
  inv_distinct : forall i j qid k1 t1 k2 t2,
    nth_error (network w) i = Some (qid, GenerateContent k1 t1) ->
    nth_error (network w) j = Some (qid, GenerateContent k2 t2) ->
    i = j
}.

End Invariants.

(** * Properties *)

Module JSONFacts.
Import JSON.

(** [JSON.parse] never returns [undefined]. *)
Lemma reduce_done (v : Value) (stack : list Frame) (v' : Value) :
  reduce v stack = PDone v' -> v' = v.
Proof.
  destruct stack as [ | [done | done k] stack]; simpl; intros H;
    inversion H; reflexivity.
Qed.

Lemma value_token_done (stack : list Frame) (t : Token) (v : Value) :
  value_token stack t = Some (PDone v) -> v <> Undefined.
Proof.
  destruct t; simpl; intros H; inversion H as [H1];
    apply reduce_done in H1; subst; discriminate.
Qed.

Lemma parse_step_done (st : ParseState) (t : Token) (v : Value) :
  parse_step st t = Some (PDone v) -> v <> Undefined.
Proof.
  destruct st; simpl; try discriminate;
    try (apply value_token_done);
    destruct t; try discriminate;
    try (apply value_token_done);
    intros H; inversion H as [H1];
    apply reduce_done in H1; subst; discriminate.
Qed.

Lemma parse_tokens_defined (ts : list Token) :
  forall st v,
    (forall v0, st = PDone v0 -> v0 <> Undefined) ->
    parse_tokens st ts = Some v -> v <> Undefined.
Proof.
  induction ts as [ | t ts IH]; simpl; intros st v Hst H.
  - destruct st; try discriminate. inversion H; subst. now apply Hst.
  - destruct (parse_step st t) as [st' | ] eqn:E; [ | discriminate ].
    apply (IH st' v); [ | exact H ].
    intros v0 ->. eapply parse_step_done; eauto.
Qed.

Lemma parse_defined (text : string) (v : Value) :
  parse text = Some v -> v <> Undefined.
Proof.
  unfold parse. destruct (lex _ _ _) as [ts | ]; [ | discriminate ].
  apply parse_tokens_defined. discriminate.
Qed.

End JSONFacts.

Section Properties.

Variable host : Host.

Set Default Proof Using "Type".

(** ** Auxiliary facts *)

Lemma In_settle (i j : nat) (l : list nat) :
  In j (filter (fun k => negb (Nat.eqb k i)) l) <-> In j l /\ j <> i.
Proof.
  rewrite filter_In. split; intros [H1 H2]; split; auto.
  - intros ->. rewrite Nat.eqb_refl in H2. discriminate.
  - apply Bool.negb_true_iff, Nat.eqb_neq. exact H2.
Qed.

Lemma inflight_existsb (i : nat) (l : list nat) :
  existsb (Nat.eqb i) l = true <-> In i l.
Proof.
  rewrite existsb_exists. split.
  - intros (x & Hx & E). apply Nat.eqb_eq in E. now subst.
  - intros H. exists i. split; [exact H | apply Nat.eqb_refl].
Qed.

Lemma nth_error_snoc_old {A} (l : list A) (x : A) (i : nat) :
  i < List.length l -> nth_error (l ++ [x]) i = nth_error l i.
Proof. intros H. now apply nth_error_app1. Qed.

Lemma nth_error_snoc_new {A} (l : list A) (x : A) :
  nth_error (l ++ [x]) (List.length l) = Some x.
Proof.
  rewrite nth_error_app2 by lia. now rewrite Nat.sub_diag.
Qed.

Lemma In_snoc {A} (l : list A) (x y : A) :
  In y (l ++ [x]) <-> In y l \/ y = x.
Proof.
  rewrite in_app_iff. simpl. intuition congruence.
Qed.

(** No guide request is in flight while the submit button is enabled. *)
Lemma idle_no_guide (w : World) (i : nat) (x : nat * Request) :
  Inv w -> loading (app w) = false ->
  In i (inflight w) -> nth_error (network w) i = Some x ->
  is_guide_request x = false.
Proof.
  intros HI Hl Hi Hx.
  destruct (is_guide_request x) eqn:E; [ | reflexivity ].
  destruct (inv_guide w HI i x Hi Hx E) as [_ Ht]. congruence.
Qed.

Lemma Inv_initial : Inv initial.
Proof.
  constructor; simpl; intros; try contradiction.
Qed.

Lemma Inv_change (w : World) (value : string) :
  Inv w -> Inv (update (setLocation value) w).
Proof.
  intros [B Q G O I]. constructor; simpl; auto.
Qed.

Lemma Inv_submit (w : World) :
  Inv w -> loading (app w) = false -> Inv (handleGetGuide host w).
Proof.
  intros HI Hl. pose proof HI as [B Q G O I].
  unfold handleGetGuide.
  destruct (String.eqb (location (app w)) "").
  { constructor; simpl; auto. }
  destruct (key_missing host).
  - constructor; simpl; auto.
    + intros qid r Hr. apply Q in Hr. lia.
    + intros i x Hi Hx Hg.
      rewrite (idle_no_guide w i x HI Hl Hi Hx) in Hg. discriminate.
  - constructor; simpl.
    + intros i Hi. rewrite length_app. simpl.
      apply In_snoc in Hi. destruct Hi as [Hi | ->]; [ apply B in Hi | ]; lia.
    + intros qid r Hr. apply In_snoc in Hr.
      destruct Hr as [Hr | E]; [ apply Q in Hr; lia | ].
      inversion E. lia.
    + intros i x Hi Hx Hg. apply In_snoc in Hi. destruct Hi as [Hi | ->].
      * rewrite nth_error_snoc_old in Hx by auto.
        rewrite (idle_no_guide w i x HI Hl Hi Hx) in Hg. discriminate.
      * rewrite nth_error_snoc_new in Hx. inversion Hx. auto.
    + intros i j x y Hi Hx Hgx Hj Hy Hgy.
      apply In_snoc in Hi. apply In_snoc in Hj.
      destruct Hi as [Hi | ->].
      * rewrite nth_error_snoc_old in Hx by auto.
        rewrite (idle_no_guide w i x HI Hl Hi Hx) in Hgx. discriminate.
      * destruct Hj as [Hj | ->]; [ | reflexivity ].
        rewrite nth_error_snoc_old in Hy by auto.
        rewrite (idle_no_guide w j y HI Hl Hj Hy) in Hgy. discriminate.
    + intros qid k p Hr. apply In_snoc in Hr.
      destruct Hr as [Hr | E]; [ eauto | discriminate ].
Qed.


(** The image handler writes [imageUrl], [isImageLoading] and the console
    only. *)
Lemma image_resume_frame (r : FetchResult) (w : World) :
  let w' := handleGenerateImage_resume host r w in
  network w' = network w /\ inflight w' = inflight w /\
  query w' = query w /\ guided w' = guided w /\
  location (app w') = location (app w) /\ guide (app w') = guide (app w) /\
  loading (app w') = loading (app w) /\ error (app w') = error (app w) /\
  isImageLoading (app w') = false /\
  imageUrl (app w') =
    match image_try host r with
    | Normal url => Some url
    | Throw _ => imageUrl (app w)
    end.
Proof.
  unfold handleGenerateImage_resume.
  destruct (image_try host r); simpl; repeat split; reflexivity.
Qed.

Lemma Inv_image_settled (w : World) (i : nat) (r : FetchResult) (x : nat * Request) :
  Inv w -> In i (inflight w) -> nth_error (network w) i = Some x ->
  is_guide_request x = false ->
  Inv (handleGenerateImage_resume host r (settle i w)).
Proof.
  intros [B Q G O I] Hi Hx Hg.
  destruct (image_resume_frame r (settle i w))
    as (En & Ei & Eq & Eg & _ & _ & El & _).
  constructor; rewrite ?En, ?Ei, ?Eq, ?Eg, ?El; simpl.
  - intros j Hj. apply In_settle in Hj. apply B, Hj.
  - exact Q.
  - intros j y Hj. apply In_settle in Hj. apply G, Hj.
  - intros j1 j2 y1 y2 H1 N1 G1 H2 N2 G2.
    apply In_settle in H1. apply In_settle in H2.
    exact (O j1 j2 y1 y2 (proj1 H1) N1 G1 (proj1 H2) N2 G2).
  - exact I.
Qed.

Lemma guide_resume_settled (w : World) (i qid : nat) (r : FetchResult) :
  guide_settled host w i qid (handleGetGuide_resume host qid r (settle i w)).
Proof.
  unfold guide_settled, handleGetGuide_resume.
  destruct (guide_try host r) as [parsed | e]; simpl.
  - destruct (get parsed "imageGenPrompt") as [p | e]; simpl.
    + destruct (truthy p); simpl.
      * repeat split. right. exists p. repeat split.
      * repeat split. left. repeat split. apply incl_tl, incl_refl.
    + repeat split. left. repeat split. apply incl_refl.
  - repeat split. left. repeat split. apply incl_refl.
Qed.

Lemma Inv_guide_settled (w w' : World) (i : nat) (x : nat * Request) :
  Inv w -> In i (inflight w) -> nth_error (network w) i = Some x ->
  is_guide_request x = true ->
  guide_settled host w i (fst x) w' ->
  Inv w'.
Proof.
  intros HI Hi Hx Hg (El & Eq & _ & Hs). pose proof HI as [B Q G O I].
  assert (others : forall j y,
             In j (filter (fun k => negb (Nat.eqb k i)) (inflight w)) ->
             nth_error (network w) j = Some y ->
             is_guide_request y = false).
  { intros j y Hj Hy. apply In_settle in Hj. destruct Hj as [Hj Hne].
    destruct (is_guide_request y) eqn:E; [ | reflexivity ].
    elim Hne. exact (O j i y x Hj Hy E Hi Hx Hg). }
  destruct Hs as [(En & Ei & Eg) | (p & En & Ei & Eg)].
  - constructor; rewrite ?En, ?Ei, ?Eq, ?El.
    + intros j Hj. apply In_settle in Hj. apply B, Hj.
    + exact Q.
    + intros j y Hj Hy Hgy. rewrite (others j y Hj Hy) in Hgy. discriminate.
    + intros j1 j2 y1 y2 H1 N1 G1. rewrite (others j1 y1 H1 N1) in G1.
      discriminate.
    + intros qid k p Hr. apply Eg. eauto.
  - constructor; rewrite ?En, ?Ei, ?Eq, ?El, ?Eg.
    + intros j Hj. rewrite length_app. simpl. apply In_snoc in Hj.
      destruct Hj as [Hj | ->]; [ | lia ].
      apply In_settle in Hj. destruct Hj as [Hj _]. apply B in Hj. lia.
    + intros qid r Hr. apply In_snoc in Hr.
      destruct Hr as [Hr | E]; [ eauto | ].
      inversion E; subst.
      destruct (G i x Hi Hx Hg) as [Ex _]. lia.
    + intros j y Hj Hy Hgy. apply In_snoc in Hj. destruct Hj as [Hj | ->].
      * pose proof Hj as Hj'. apply In_settle in Hj'.
        rewrite nth_error_snoc_old in Hy by (apply B, Hj').
        rewrite (others j y Hj Hy) in Hgy. discriminate.
      * rewrite nth_error_snoc_new in Hy. inversion Hy; subst. discriminate.
    + intros j1 j2 y1 y2 H1 N1 G1. apply In_snoc in H1.
      destruct H1 as [H1 | ->].
      * pose proof H1 as H1'. apply In_settle in H1'.
        rewrite nth_error_snoc_old in N1 by (apply B, H1').
        rewrite (others j1 y1 H1 N1) in G1. discriminate.
      * rewrite nth_error_snoc_new in N1. inversion N1; subst. discriminate.
    + intros qid k p' Hr. apply In_snoc in Hr.
      destruct Hr as [Hr | E].
      * right. eauto.
      * inversion E; subst. now left.
Qed.

Lemma settle_request (w : World) (i : nat) (r : FetchResult) (w' : World) :
  step host w (Settle i r) = Some w' ->
  In i (inflight w) /\
  exists x, nth_error (network w) i = Some x /\
    ((is_guide_request x = true /\
      w' = handleGetGuide_resume host (fst x) r (settle i w)) \/
     (is_guide_request x = false /\
      w' = handleGenerateImage_resume host r (settle i w))).
Proof.
  unfold step. intros Hw.
  destruct (existsb (Nat.eqb i) (inflight w)) eqn:E; [ | discriminate ].
  apply inflight_existsb in E. split; [ exact E | ].
  destruct (nth_error (network w) i) as [[qid [k p | k p]] | ];
    inversion Hw; subst; eexists; split; try reflexivity; simpl; auto.
Qed.

Lemma step_Inv (w : World) (e : Event) (w' : World) :
  Inv w -> step host w e = Some w' -> Inv w'.
Proof.
  intros HI Hs. destruct e as [value | | i r].
  - inversion Hs. now apply Inv_change.
  - simpl in Hs. destruct (loading (app w)) eqn:El; inversion Hs.
    now apply Inv_submit.
  - apply settle_request in Hs.
    destruct Hs as (Hi & x & Hx & [[Hg ->] | [Hg ->]]).
    + eapply Inv_guide_settled; eauto. apply guide_resume_settled.
    + eapply Inv_image_settled; eauto.
Qed.

Lemma reachable_Inv (w : World) : reachable host w -> Inv w.
Proof.
  induction 1; [ apply Inv_initial | eapply step_Inv; eauto ].
Qed.

Lemma run_reachable (es : list Event) :
  forall w w', reachable host w -> run host w es = Some w' -> reachable host w'.
Proof.
  induction es as [ | e es IH]; simpl; intros w w' Hr H.
  - inversion H; subst. exact Hr.
  - destruct (step host w e) as [w1 | ] eqn:E; [ | discriminate ].
    apply (IH w1 w'); [ | exact H ].
    eapply reachable_step; eauto.
Qed.


Lemma get_throws (v : Value) (k : string) (e : Thrown) :
  get v k = Throw e -> e = TypeError /\ nullish v = true.
Proof.
  destruct v; simpl; intros H; inversion H; auto.
Qed.

Lemma to_string_throws (v : Value) (e : Thrown) :
  to_string host v = Throw e -> e = TypeError.
Proof.
  unfold to_string. destruct v; try destruct (ToString _);
    intros H; inversion H; reflexivity.
Qed.

(** Everything that can reach the [catch] of [handleGetGuide] after the
    request was sent. *)
Lemma guide_thrown (r : FetchResult) (e : Thrown) :
  guide_completion host r = Throw e ->
  e = TypeError \/ e = SyntaxError \/
  e = Error "Invalid response structure from AI." \/
  exists status, ok status = false /\
    e = Error ("API request failed with status " ++ decimal status).
Proof.
  unfold guide_completion, guide_try.
  destruct r as [ | status body]; simpl.
  { intros H. inversion H. auto. }
  destruct (ok status) eqn:Eok; simpl.
  2:{ intros H. inversion H. right. right. right. eauto. }
  destruct body as [result | ]; simpl.
  2:{ intros H. inversion H. auto. }
  unfold nested_text.
  destruct (get result "candidates") as [c | e0] eqn:Ec; simpl.
  2:{ intros H. inversion H; subst. apply get_throws in Ec.
      destruct Ec as [-> _]. auto. }
  destruct (truthy _); simpl.
  2:{ intros H. inversion H. auto. }
  unfold JSON_parse.
  destruct (to_string host _) as [text | e0] eqn:Et; simpl.
  2:{ intros H. inversion H; subst. apply to_string_throws in Et. auto. }
  destruct (JSON.parse text) as [parsed | ]; simpl.
  2:{ intros H. inversion H. auto. }
  destruct (get parsed "imageGenPrompt") as [p | e0] eqn:Ep; simpl.
  { discriminate. }
  intros H. inversion H; subst. apply get_throws in Ep.
  destruct Ep as [-> _]. auto.
Qed.

(** ** The claims *)

(** C10.  When [handleGetGuide] runs while [location] is the empty
    string, the only state cell it writes is [error], which receives the
    fixed message; [guide], [imageUrl], [loading] and [isImageLoading]
    (and [location]) keep their values, so whatever guide and image were
    shown stay shown next to the new error, and nothing else in the
    environment changes either. *)
Theorem empty_submit_only_sets_error (w : World) :
  location (app w) = "" ->
  handleGetGuide host w = update (setError (Some empty_query_message)) w /\
  error (app (handleGetGuide host w)) = Some empty_query_message /\
  guide (app (handleGetGuide host w)) = guide (app w) /\
  imageUrl (app (handleGetGuide host w)) = imageUrl (app w) /\
  loading (app (handleGetGuide host w)) = loading (app w) /\
  isImageLoading (app (handleGetGuide host w)) = isImageLoading (app w) /\
  location (app (handleGetGuide host w)) = location (app w).
Proof.
  intros E. unfold handleGetGuide. rewrite E. simpl.
  repeat split; exact E.
Qed.

(** C2, amended.  For the empty location string, [handleGetGuide] sends
    no request and leaves none in flight, and goes straight to the failed
    state: [error] holds the empty-query message.  (The test is
    [!location]; a string of blanks is not empty and is not rejected.) *)
Theorem empty_location_rejected_before_request (w : World) :
  location (app w) = "" ->
  network (handleGetGuide host w) = network w /\
  inflight (handleGetGuide host w) = inflight w /\
  query (handleGetGuide host w) = query w /\
  error (app (handleGetGuide host w)) = Some empty_query_message.
Proof.
  intros E. unfold handleGetGuide. rewrite E. simpl. repeat split.
Qed.

(** C7.  Without an API key, [handleGetGuide] on a non-empty location
    fails at once: no request is sent and none is in flight, the state is
    the guide-failed one ([error] set, [guide] absent, [loading] off), and
    the condition is reported as ['API Key is missing.'], which no
    failure of a request that was sent is reported as. *)
Theorem missing_key_fails_without_request (w : World) :
  key_missing host = true ->
  location (app w) <> "" ->
  network (handleGetGuide host w) = network w /\
  inflight (handleGetGuide host w) = inflight w /\
  error (app (handleGetGuide host w)) = Some guide_failed_message /\
  guide (app (handleGetGuide host w)) = Null /\
  loading (app (handleGetGuide host w)) = false /\
  console (handleGetGuide host w)
    = (console w ++ [GuideError (Error "API Key is missing.")])%list /\
  (forall r e, guide_completion host r = Throw e -> e <> Error "API Key is missing.").
Proof.
  intros Hk Hl. apply String.eqb_neq in Hl.
  unfold handleGetGuide. rewrite Hl, Hk. simpl. repeat split.
  intros r e He.
  destruct (guide_thrown r e He) as [-> | [-> | [-> | (s & _ & ->)]]];
    discriminate.
Qed.


Lemma get_defined (v : Value) (k : string) :
  nullish v = false -> exists x, get v k = Normal x.
Proof.
  destruct v; simpl; try discriminate; eauto.
Qed.

Lemma guide_try_text (status : N) (result : Value) (text : string) :
  ok status = true ->
  nested_text result = Normal (Str text) ->
  text <> "" ->
  guide_try host (Responded status (Some result))
  = match JSON.parse text with
    | Some v => Normal v
    | None => Throw SyntaxError
    end.
Proof.
  intros Hs Ht Hne. apply String.eqb_neq in Hne.
  unfold guide_try. rewrite Hs, Ht. simpl. rewrite Hne. reflexivity.
Qed.

(** C3, amended.  A guide response whose nested text payload is a
    non-empty string that parses as JSON is not checked against the five
    required fields: whatever value it parses to, other than [null], is
    stored as the guide as it is, no error is set and nothing is
    reported; only the payload [null] is treated as a failure (reading
    its [imageGenPrompt] throws), and leaves [guide] absent. *)
Theorem parsed_guide_stored_unvalidated
  (w : World) (qid : nat) (status : N) (result : Value) (text : string)
  (parsed : Value) :
  ok status = true ->
  nested_text result = Normal (Str text) ->
  text <> "" ->
  JSON.parse text = Some parsed ->
  let w' := handleGetGuide_resume host qid (Responded status (Some result)) w in
  guide (app w') = parsed /\
  loading (app w') = false /\
  (parsed <> Null ->
     error (app w') = error (app w) /\ console w' = console w /\
     In qid (guided w')) /\
  (parsed = Null ->
     error (app w') = Some guide_failed_message /\ guided w' = guided w).
Proof.
  intros Hs Ht Hne Hp w'. subst w'. unfold handleGetGuide_resume.
  rewrite (guide_try_text status result text Hs Ht Hne), Hp.
  pose proof (JSONFacts.parse_defined text parsed Hp) as Hd.
  destruct (get parsed "imageGenPrompt") as [p | e] eqn:Eg.
  - assert (parsed <> Null) by (intros ->; discriminate).
    destruct (truthy p); simpl; repeat split; auto; intros; contradiction.
  - apply get_throws in Eg. destruct Eg as [_ Hn].
    destruct parsed; try discriminate; [ now elim Hd | ].
    simpl. split; [ reflexivity | ]. split; [ reflexivity | ].
    split; [ intros Hnn; now elim Hnn | intros _; split; reflexivity ].
Qed.

(** C9, amended.  Every failure of the guide stage that arises once the
    query was accepted (missing credential, failed request, malformed
    response, payload that is not JSON) puts the same generic message in
    [error], and they stay apart in what is reported to the console.
    The empty query is not among them: it has a message of its own and
    reports nothing. *)
Theorem request_failures_share_one_message (w : World) :
  (key_missing host = true -> location (app w) <> "" ->
     error (app (handleGetGuide host w)) = Some guide_failed_message /\
     console (handleGetGuide host w)
       = (console w ++ [GuideError (Error "API Key is missing.")])%list) /\
  (forall qid r e, guide_completion host r = Throw e ->
     error (app (handleGetGuide_resume host qid r w)) = Some guide_failed_message /\
     console (handleGetGuide_resume host qid r w)
       = (console w ++ [GuideError e])%list) /\
  (forall status body, ok status = false ->
     guide_completion host (Responded status body)
       = Throw (Error ("API request failed with status " ++ decimal status))) /\
  (forall status result text, ok status = true ->
     nested_text result = Normal text -> truthy text = false ->
     guide_completion host (Responded status (Some result))
       = Throw (Error "Invalid response structure from AI.")) /\
  (forall status result text, ok status = true ->
     nested_text result = Normal (Str text) -> text <> "" ->
     JSON.parse text = None ->
     guide_completion host (Responded status (Some result)) = Throw SyntaxError) /\
  (forall status,
     Error "API Key is missing."
       <> Error ("API request failed with status " ++ decimal status) /\
     Error "Invalid response structure from AI."
       <> Error ("API request failed with status " ++ decimal status)) /\
  (location (app w) = "" ->
     error (app (handleGetGuide host w)) = Some empty_query_message /\
     console (handleGetGuide host w) = console w) /\
  empty_query_message <> guide_failed_message.
Proof.
  repeat apply conj.
  - intros Hk Hl. apply String.eqb_neq in Hl.
    unfold handleGetGuide. rewrite Hl, Hk. simpl. auto.
  - intros qid r e He. unfold guide_completion in He.
    unfold handleGetGuide_resume.
    destruct (guide_try host r) as [parsed | e0]; simpl in He.
    + destruct (get parsed "imageGenPrompt") as [p | e0]; simpl in He;
        inversion He; subst. simpl. auto.
    + inversion He; subst. simpl. auto.
  - intros status body Hs. unfold guide_completion, guide_try.
    rewrite Hs. reflexivity.
  - intros status result text Hs Ht Hf. unfold guide_completion, guide_try.
    rewrite Hs, Ht. simpl. rewrite Hf. reflexivity.
  - intros status result text Hs Ht Hne Hp. unfold guide_completion.
    rewrite (guide_try_text status result text Hs Ht Hne), Hp. reflexivity.
  - intros status. split; simpl; discriminate.
  - intros E. unfold handleGetGuide. rewrite E. simpl. auto.
  - discriminate.
Qed.


Lemma settle_image (w : World) (i qid : nat) (k : string) (p : Value) (r : FetchResult) :
  In i (inflight w) -> nth_error (network w) i = Some (qid, Predict k p) ->
  step host w (Settle i r) = Some (handleGenerateImage_resume host r (settle i w)).
Proof.
  intros Hi Hx. apply inflight_existsb in Hi.
  unfold step. now rewrite Hi, Hx.
Qed.

Lemma settle_guide (w : World) (i qid : nat) (k p : string) (r : FetchResult) :
  In i (inflight w) -> nth_error (network w) i = Some (qid, GenerateContent k p) ->
  step host w (Settle i r) = Some (handleGetGuide_resume host qid r (settle i w)).
Proof.
  intros Hi Hx. apply inflight_existsb in Hi.
  unfold step. now rewrite Hi, Hx.
Qed.

(** C1, amended.  There is no stale-response guard.  In every reachable
    world, a request that is still in flight although a later search has
    started is an image request (no search can start while a guide
    request is in flight, the submit button being disabled), and its
    response is applied like any other: it leaves [guide], [error],
    [loading] and [location] alone, switches [isImageLoading] off, and,
    when it carries an image, overwrites [imageUrl] with it. *)
Theorem superseded_response_is_applied
  (w : World) (i qid : nat) (req : Request) :
  reachable host w ->
  In i (inflight w) ->
  nth_error (network w) i = Some (qid, req) ->
  superseded w qid ->
  (exists k p, req = Predict k p) /\
  forall r, exists w',
    step host w (Settle i r) = Some w' /\
    guide (app w') = guide (app w) /\
    error (app w') = error (app w) /\
    loading (app w') = loading (app w) /\
    location (app w') = location (app w) /\
    isImageLoading (app w') = false /\
    imageUrl (app w') =
      match image_try host r with
      | Normal url => Some url
      | Throw _ => imageUrl (app w)
      end.
Proof.
  intros Hr Hi Hx Hs. apply reachable_Inv in Hr.
  destruct req as [k p | k p].
  - destruct (inv_guide w Hr i _ Hi Hx eq_refl) as [E _].
    simpl in E. unfold superseded in Hs. lia.
  - split; [ eauto | ]. intros r.
    exists (handleGenerateImage_resume host r (settle i w)).
    split; [ eapply settle_image; eauto | ].
    destruct (image_resume_frame r (settle i w))
      as (_ & _ & _ & _ & El & Eg & Ev & Ee & Ei & Eu).
    simpl in *. auto 10.
Qed.

Lemma snoc_not_self {A} (l : list A) (x : A) : l <> (l ++ [x])%list.
Proof.
  intros E. apply (f_equal (@List.length A)) in E.
  rewrite length_app in E. simpl in E. lia.
Qed.

Lemma guide_completion_normal (r : FetchResult) (parsed : Value) :
  guide_completion host r = Normal parsed <->
  guide_try host r = Normal parsed /\ exists p, get parsed "imageGenPrompt" = Normal p.
Proof.
  unfold guide_completion.
  destruct (guide_try host r) as [v | e]; simpl.
  - destruct (get v "imageGenPrompt") as [p | e] eqn:E; simpl; split.
    + intros H. inversion H; subst. eauto.
    + intros [H _]. exact H.
    + discriminate.
    + intros [H (p & Hp)]. inversion H; subst. congruence.
  - split; [ discriminate | intros [H _]; discriminate ].
Qed.

(** C4, amended.  An image request is sent exactly when the guide
    request of the current search settles with an accepted guide whose
    [imageGenPrompt] is truthy: in a reachable world a turn of the event
    loop adds the image request [(qid, Predict k p)] if and only if the
    turn settles the guide request of search [qid], which is the current
    search, the guide is accepted, [p] is its [imageGenPrompt], and [p]
    is truthy.  Accordingly every image request ever sent belongs to a
    search whose guide had been accepted before. *)
Theorem image_request_iff_accepted_prompt
  (w : World) (e : Event) (w' : World) :
  reachable host w ->
  step host w e = Some w' ->
  (forall qid k p,
     network w' = (network w ++ [(qid, Predict k p)])%list <->
     exists i r key text parsed,
       e = Settle i r /\
       nth_error (network w) i = Some (qid, GenerateContent key text) /\
       qid = query w /\
       guide_completion host r = Normal parsed /\
       get parsed "imageGenPrompt" = Normal p /\
       truthy p = true /\
       k = key_text host) /\
  (forall qid k p, In (qid, Predict k p) (network w') -> In qid (guided w')).
Proof.
  intros Hr Hs. apply reachable_Inv in Hr.
  split; [ | intros qid k p; apply (inv_image w' (step_Inv w e w' Hr Hs)) ].
  intros qid k p. split.
  - intros En. destruct e as [value | | i r].
    + inversion Hs; subst. simpl in En. elim (snoc_not_self _ _ En).
    + simpl in Hs. destruct (loading (app w)); inversion Hs; subst; clear Hs.
      unfold handleGetGuide in En.
      destruct (String.eqb (location (app w)) ""); simpl in En;
        [ elim (snoc_not_self _ _ En) | ].
      destruct (key_missing host); simpl in En; [ elim (snoc_not_self _ _ En) | ].
      apply app_inj_tail in En. destruct En as [_ En]. discriminate.
    + apply settle_request in Hs.
      destruct Hs as (Hi & x & Hx & [[Hg ->] | [Hg ->]]).
      * destruct x as [q0 [key text | ? ?]]; [ | discriminate ].
        destruct (inv_guide w Hr i _ Hi Hx eq_refl) as [Eq _].
        simpl in Eq, En. unfold handleGetGuide_resume in En.
        destruct (guide_try host r) as [parsed | e0] eqn:Et; simpl in En;
          [ | elim (snoc_not_self _ _ En) ].
        destruct (get parsed "imageGenPrompt") as [p0 | e0] eqn:Ep; simpl in En;
          [ | elim (snoc_not_self _ _ En) ].
        destruct (truthy p0) eqn:Etr; simpl in En;
          [ | elim (snoc_not_self _ _ En) ].
        apply app_inj_tail in En. destruct En as [_ En].
        inversion En; subst.
        exists i, r, key, text, parsed. repeat split; auto.
        apply guide_completion_normal. eauto.
      * destruct (image_resume_frame r (settle i w)) as (E & _).
        rewrite E in En. simpl in En. elim (snoc_not_self _ _ En).
  - intros (i & r & key & text & parsed & -> & Hx & Eq & Hc & Hp & Ht & ->).
    apply settle_request in Hs.
    destruct Hs as (Hi & x & Hx' & Hw). rewrite Hx in Hx'. inversion Hx'; subst x.
    destruct Hw as [[_ ->] | [Hg _]]; [ | discriminate ].
    apply guide_completion_normal in Hc. destruct Hc as [Hc _].
    unfold handleGetGuide_resume. simpl. rewrite Hc, Hp, Ht. reflexivity.
Qed.

(** The guide handler leaves [imageUrl] alone or clears it. *)
Lemma guide_resume_imageUrl (qid : nat) (r : FetchResult) (w : World) :
  imageUrl (app (handleGetGuide_resume host qid r w)) = imageUrl (app w) \/
  imageUrl (app (handleGetGuide_resume host qid r w)) = None.
Proof.
  unfold handleGetGuide_resume.
  destruct (guide_try host r) as [parsed | e]; simpl; auto.
  destruct (get parsed "imageGenPrompt") as [p | e]; simpl; auto.
  destruct (truthy p); simpl; auto.
Qed.

(** C8, amended.  Every submission of a query (a non-empty location)
    clears [imageUrl] at its start, whatever becomes of the query; and
    [imageUrl] only ever receives an image from a settled image request,
    which belongs to a search whose guide had been accepted: the search
    the request was sent for, started no later than the current one and
    not always the current one. *)
Theorem image_cleared_at_submit_and_set_after_guide (w : World) :
  reachable host w ->
  (location (app w) <> "" -> imageUrl (app (handleGetGuide host w)) = None) /\
  (forall e w' url,
     step host w e = Some w' ->
     imageUrl (app w') = Some url ->
     imageUrl (app w') <> imageUrl (app w) ->
     exists i r qid k p,
       e = Settle i r /\
       In i (inflight w) /\
       nth_error (network w) i = Some (qid, Predict k p) /\
       image_try host r = Normal url /\
       In qid (guided w) /\
       qid <= query w).
Proof.
  intros Hr. apply reachable_Inv in Hr. split.
  - intros Hl. apply String.eqb_neq in Hl.
    unfold handleGetGuide. rewrite Hl. destruct (key_missing host); reflexivity.
  - intros e w' url Hs Hu Hne. destruct e as [value | | i r].
    + inversion Hs; subst. simpl in Hne. congruence.
    + simpl in Hs. destruct (loading (app w)); inversion Hs; subst; clear Hs.
      unfold handleGetGuide in Hu, Hne.
      destruct (String.eqb (location (app w)) ""); simpl in Hu, Hne;
        [ congruence | ].
      destruct (key_missing host); simpl in Hu; discriminate.
    + apply settle_request in Hs.
      destruct Hs as (Hi & x & Hx & [[Hg ->] | [Hg ->]]).
      * destruct (guide_resume_imageUrl (fst x) r (settle i w)) as [E | E];
          change (app (settle i w)) with (app w) in E; congruence.
      * destruct (image_resume_frame r (settle i w))
          as (_ & _ & _ & _ & _ & _ & _ & _ & _ & Eu).
        change (app (settle i w)) with (app w) in Eu.
        destruct x as [qid [? ? | k p]]; [ discriminate | ].
        destruct (image_try host r) as [url' | e0] eqn:Et; [ | congruence ].
        exists i, r, qid, k, p. repeat split; auto.
        { congruence. }
        { eapply inv_image; eauto. eapply nth_error_In; eauto. }
        { apply (inv_query w Hr qid (Predict k p)). eapply nth_error_In; eauto. }
Qed.










End Properties.


Lemma play_reachable (host : Host) (es : list Event) (w : World) :
  play host es = Some w -> reachable host w.
Proof.
  apply run_reachable. apply reachable_initial.
Qed.

(** C1, as stated, fails: Rome's image arrives after the search for
    Kyoto has started and Kyoto's guide is shown.  The response is not
    discarded: it becomes the image shown with Kyoto's guide and it
    switches off the indicator of Kyoto's image request, which is still
    in flight. *)
Lemma stale_image_overwrites_newer_query :
  let before := after keyed rome_then_kyoto in
  let stale := Settle 1 (image_response [png "QUJD"]) in
  play keyed rome_then_kyoto = Some before /\
  nth_error (network before) 1 = Some (1, Predict "k" (Str "A plate of carbonara")) /\
  query before = 2 /\
  inflight before = [1; 3] /\
  get (guide (app before)) "locationName" = Normal (Str "Kyoto") /\
  imageUrl (app before) = None /\
  isImageLoading (app before) = true /\
  exists w,
    step keyed before stale = Some w /\
    get (guide (app w)) "locationName" = Normal (Str "Kyoto") /\
    imageUrl (app w) = Some "data:image/png;base64,QUJD" /\
    isImageLoading (app w) = false /\
    inflight w = [3] /\
    app w <> app before.
Proof.
  vm_compute. repeat split.
  eexists. repeat split. discriminate.
Qed.

(** C2, as stated, fails: a location of one blank is not rejected; with
    an API key the request is sent and no error is set. *)
Lemma blank_location_sends_request :
  let w := update (setLocation " ") initial in
  whitespace_only (location (app w)) = true /\
  network (handleGetGuide keyed w)
    = [(1, GenerateContent "k" (guide_prompt " "))] /\
  inflight (handleGetGuide keyed w) = [0] /\
  error (app (handleGetGuide keyed w)) = None /\
  loading (app (handleGetGuide keyed w)) = true.
Proof.
  vm_compute. repeat split.
Qed.

(** C3, as stated, fails: a payload with [locationName] alone parses and
    is stored as the guide, with no error. *)
Lemma incomplete_guide_is_stored :
  let text := "{" ++ member "locationName" "Rome" ++ "}" in
  let w := after keyed [Change "Rome"; Submit; Settle 0 (guide_response text)] in
  JSON.parse text = Some (Object [("locationName", Str "Rome")]) /\
  play keyed [Change "Rome"; Submit; Settle 0 (guide_response text)] = Some w /\
  guide (app w) = Object [("locationName", Str "Rome")] /\
  get (guide (app w)) "mustTryDishes" = Normal Undefined /\
  get (guide (app w)) "etiquetteTip" = Normal Undefined /\
  get (guide (app w)) "restaurantSuggestion" = Normal Undefined /\
  get (guide (app w)) "imageGenPrompt" = Normal Undefined /\
  error (app w) = None /\
  console w = [].
Proof.
  vm_compute. repeat split.
Qed.

(** C4, as stated, fails: a guide with all five fields whose
    [imageGenPrompt] is the empty string is accepted, and no image
    request follows. *)
Lemma accepted_guide_without_image_request :
  let text := guide_text "Rome" "Carbonara" "" in
  let w := after keyed [Change "Rome"; Submit; Settle 0 (guide_response text)] in
  play keyed [Change "Rome"; Submit; Settle 0 (guide_response text)] = Some w /\
  get (guide (app w)) "locationName" = Normal (Str "Rome") /\
  get (guide (app w)) "imageGenPrompt" = Normal (Str "") /\
  error (app w) = None /\
  loading (app w) = false /\
  guided w = [1] /\
  network w = [(1, GenerateContent "k" (guide_prompt "Rome"))] /\
  inflight w = [] /\
  isImageLoading (app w) = false.
Proof.
  vm_compute. repeat split.
Qed.

(** C9, as stated, fails: the empty query and the missing credential
    are both guide-stage failures, and the user reads two different
    messages. *)
Lemma empty_query_has_its_own_message :
  let typed := update (setLocation "Rome") initial in
  error (app (handleGetGuide keyless initial)) = Some "Please enter a country or city." /\
  error (app (handleGetGuide keyless typed))
    = Some "Could not fetch the guide. The Culinary Compass is recalibrating!" /\
  error (app (handleGetGuide keyless initial)) <> error (app (handleGetGuide keyless typed)).
Proof.
  vm_compute. repeat split. discriminate.
Qed.



(** C8, as stated, fails for the query of the moment: Kyoto is searched
    while Rome's image is pending, and Rome's image arrives before
    Kyoto's guide.  An image is stored while the current search has no
    guide, neither accepted nor on display. *)
Lemma image_stored_before_guide_of_current_query :
  let trace :=
    [ Change "Rome"; Submit; Settle 0 rome_guide; Change "Kyoto"; Submit ] in
  let before := after keyed trace in
  play keyed trace = Some before /\
  imageUrl (app before) = None /\
  query before = 2 /\
  guided before = [1] /\
  ~ In (query before) (guided before) /\
  exists w,
    step keyed before (Settle 1 (image_response [png "QUJD"])) = Some w /\
    imageUrl (app w) = Some "data:image/png;base64,QUJD" /\
    query w = 2 /\
    guide (app w) = Null /\
    loading (app w) = true /\
    ~ In (query w) (guided w).
Proof.
  vm_compute. repeat split.
  - intros [F | []]. discriminate.
  - eexists. repeat split. intros [F | []]. discriminate.
Qed.

(** *** The theorems at concrete inputs *)

(** Submitting the emptied input keeps Rome's guide and image on
    display next to the new error. *)
Lemma empty_submit_only_sets_error_witness :
  location (app rome_shown_input_emptied) = "" /\
  get (guide (app rome_shown_input_emptied)) "locationName" = Normal (Str "Rome") /\
  imageUrl (app rome_shown_input_emptied) = Some "data:image/png;base64,QUJD" /\
  guide (app (handleGetGuide keyed rome_shown_input_emptied))
    = guide (app rome_shown_input_emptied) /\
  imageUrl (app (handleGetGuide keyed rome_shown_input_emptied))
    = imageUrl (app rome_shown_input_emptied) /\
  error (app (handleGetGuide keyed rome_shown_input_emptied))
    = Some empty_query_message.
Proof.
  destruct (empty_submit_only_sets_error keyed rome_shown_input_emptied eq_refl)
    as (_ & He & Hg & Hu & _).
  repeat apply conj; try assumption; by_evaluation.
Defined.

(** The first submit of a session, with nothing typed. *)
Lemma empty_location_rejected_before_request_witness :
  location (app initial) = "" /\
  network (handleGetGuide keyed initial) = [] /\
  inflight (handleGetGuide keyed initial) = [] /\
  error (app (handleGetGuide keyed initial)) = Some empty_query_message.
Proof.
  destruct (empty_location_rejected_before_request keyed initial eq_refl)
    as (Hn & Hi & _ & He).
  repeat apply conj; try assumption; by_evaluation.
Defined.

(** Rome is searched on a host without an API key. *)
Lemma missing_key_fails_without_request_witness :
  let w := update (setLocation "Rome") initial in
  key_missing keyless = true /\
  location (app w) <> "" /\
  network (handleGetGuide keyless w) = [] /\
  error (app (handleGetGuide keyless w)) = Some guide_failed_message /\
  console (handleGetGuide keyless w) = [GuideError (Error "API Key is missing.")].
Proof.
  intros w.
  assert (location (app w) <> "") as Hne by (vm_compute; discriminate).
  destruct (missing_key_fails_without_request keyless w eq_refl Hne)
    as (Hn & _ & He & _ & _ & Hc & _).
  repeat apply conj; try assumption; by_evaluation.
Defined.


(** The guide endpoint answers with [locationName] alone. *)
Lemma parsed_guide_stored_unvalidated_witness :
  let text := "{" ++ member "locationName" "Rome" ++ "}" in
  let result := guide_body text in
  let w := after keyed [Change "Rome"; Submit] in
  let w' := handleGetGuide_resume keyed 1 (Responded 200 (Some result)) w in
  ok 200 = true /\
  nested_text result = Normal (Str text) /\
  text <> "" /\
  JSON.parse text = Some (Object [("locationName", Str "Rome")]) /\
  guide (app w') = Object [("locationName", Str "Rome")] /\
  error (app w') = error (app w).
Proof.
  intros text result w w'.
  assert (text <> "") as Hne by (vm_compute; discriminate).
  destruct (parsed_guide_stored_unvalidated keyed w 1 200 result text
              (Object [("locationName", Str "Rome")]) eq_refl eq_refl Hne eq_refl)
    as (Hg & _ & Hok & _).
  destruct Hok as (He & _); [ discriminate | ].
  repeat apply conj; try assumption; by_evaluation.
Defined.

(** A 500, a body without candidates and a text that is not JSON. *)
Lemma request_failures_share_one_message_witness :
  let w := after keyed [Change "Rome"; Submit] in
  let failed := Responded 500 None in
  let malformed := Responded 200 (Some (Object [])) in
  let unparsable := guide_response "not json" in
  error (app (handleGetGuide_resume keyed 1 failed w))
    = Some guide_failed_message /\
  error (app (handleGetGuide_resume keyed 1 malformed w))
    = Some guide_failed_message /\
  error (app (handleGetGuide_resume keyed 1 unparsable w))
    = Some guide_failed_message /\
  guide_completion keyed failed
    = Throw (Error "API request failed with status 500") /\
  guide_completion keyed malformed
    = Throw (Error "Invalid response structure from AI.") /\
  guide_completion keyed unparsable = Throw SyntaxError.
Proof.
  intros w failed malformed unparsable.
  destruct (request_failures_share_one_message keyed w)
    as (_ & Hm & H1 & H2 & H3 & _).
  assert ("not json" <> "") as Hne by (vm_compute; discriminate).
  pose proof (H1 500%N None eq_refl) as E1.
  pose proof (H2 200%N (Object []) Undefined eq_refl eq_refl eq_refl) as E2.
  pose proof (H3 200%N (guide_body "not json") "not json"
                 eq_refl eq_refl Hne eq_refl) as E3.
  repeat apply conj;
    [ apply (Hm 1%nat failed _ E1) | apply (Hm 1%nat malformed _ E2)
    | apply (Hm 1%nat unparsable _ E3) | exact E1 | exact E2 | exact E3 ].
Defined.

(** Rome's image request is superseded by the search for Kyoto. *)
Lemma superseded_response_is_applied_witness :
  let w := after keyed rome_then_kyoto in
  reachable keyed w /\
  In 1 (inflight w) /\
  nth_error (network w) 1 = Some (1, Predict "k" (Str "A plate of carbonara")) /\
  superseded w 1 /\
  exists w',
    step keyed w (Settle 1 (image_response [png "QUJD"]))
      = Some w' /\
    guide (app w') = guide (app w) /\
    imageUrl (app w') = Some "data:image/png;base64,QUJD" /\
    isImageLoading (app w') = false.
Proof.
  intros w.
  assert (reachable keyed w) as Hr
    by (apply (play_reachable keyed rome_then_kyoto); by_evaluation).
  assert (In 1 (inflight w)) as Hi by (vm_compute; auto).
  assert (superseded w 1) as Hs by (vm_compute; lia).
  destruct (superseded_response_is_applied keyed w 1 1
              (Predict "k" (Str "A plate of carbonara")) Hr Hi eq_refl Hs)
    as (_ & H).
  destruct (H (image_response [png "QUJD"]))
    as (w' & Hstep & Hg & _ & _ & _ & Hl & Hu).
  repeat apply conj; try assumption; try by_evaluation.
  exists w'. repeat apply conj; [ exact Hstep | exact Hg | exact Hu | exact Hl ].
Defined.

(** Rome's guide arrives with an image prompt. *)
Lemma image_request_iff_accepted_prompt_witness :
  let w := after keyed [Change "Rome"; Submit] in
  let w' := after keyed [Change "Rome"; Submit; Settle 0 rome_guide] in
  let p := Str "A plate of carbonara" in
  reachable keyed w /\
  step keyed w (Settle 0 rome_guide) = Some w' /\
  network w' = (network w ++ [(1, Predict "k" p)])%list /\
  (exists i r key text parsed,
     Settle 0 rome_guide = Settle i r /\
     nth_error (network w) i = Some (1, GenerateContent key text) /\
     1 = query w /\
     guide_completion keyed r = Normal parsed /\
     get parsed "imageGenPrompt" = Normal p /\
     truthy p = true /\
     "k" = key_text keyed) /\
  In 1 (guided w').
Proof.
  intros w w' p.
  assert (reachable keyed w) as Hr
    by (apply (play_reachable keyed [Change "Rome"; Submit]); by_evaluation).
  assert (step keyed w (Settle 0 rome_guide) = Some w') as Hs by by_evaluation.
  assert (network w' = (network w ++ [(1, Predict "k" p)])%list) as Hn
    by by_evaluation.
  destruct (image_request_iff_accepted_prompt keyed w
              (Settle 0 rome_guide) w' Hr Hs) as (Hiff & Hin).
  repeat apply conj; [ exact Hr | exact Hs | exact Hn | | ].
  - exact (proj1 (Hiff 1 "k" p) Hn).
  - apply (Hin 1 "k" p). rewrite Hn. apply in_or_app. right. now left.
Defined.

(** Rome's guide is shown and its image arrives. *)
Lemma image_cleared_at_submit_and_set_after_guide_witness :
  let w := after keyed [Change "Rome"; Submit; Settle 0 rome_guide] in
  let arrived := Settle 1 (image_response [png "QUJD"]) in
  reachable keyed w /\
  location (app w) <> "" /\
  imageUrl (app (handleGetGuide keyed w)) = None /\
  exists w' i r qid k p,
    step keyed w arrived = Some w' /\
    imageUrl (app w') = Some "data:image/png;base64,QUJD" /\
    arrived = Settle i r /\
    nth_error (network w) i = Some (qid, Predict k p) /\
    In qid (guided w).
Proof.
  intros w arrived.
  assert (reachable keyed w) as Hr
    by (apply (play_reachable keyed [Change "Rome"; Submit; Settle 0 rome_guide]); by_evaluation).
  assert (location (app w) <> "") as Hne by (vm_compute; discriminate).
  destruct (image_cleared_at_submit_and_set_after_guide keyed
              w Hr) as (Hclear & Hset).
  repeat apply conj; try assumption; [ exact (Hclear Hne) | ].
  pose (w' := after keyed [Change "Rome"; Submit; Settle 0 rome_guide; arrived]).
  assert (step keyed w arrived = Some w') as Hstep
    by by_evaluation.
  assert (imageUrl (app w') = Some "data:image/png;base64,QUJD") as Hu
    by by_evaluation.
  assert (imageUrl (app w') <> imageUrl (app w)) as Hch
    by (vm_compute; discriminate).
  destruct (Hset arrived w' "data:image/png;base64,QUJD" Hstep Hu Hch)
    as (i & r & qid & k & p & E & _ & Hx & _ & Hg & _).
  exists w', i, r, qid, k, p.
  repeat apply conj; [ exact Hstep | exact Hu | exact E | exact Hx | exact Hg ].
Defined.


(** * Further properties *)

Section Extras.

Variable host : Host.

Set Default Proof Using "Type".

Lemma nth_error_snoc_some {A} (l : list A) (y x : A) (i : nat) :
  nth_error l i = Some x -> nth_error (l ++ [y]) i = Some x.
Proof.
  intros H. rewrite nth_error_app1; [ exact H | ].
  apply nth_error_Some. congruence.
Qed.

Lemma nth_error_snoc_inv {A} (l : list A) (y x : A) (i : nat) :
  nth_error (l ++ [y]) i = Some x ->
  nth_error l i = Some x \/ (i = List.length l /\ x = y).
Proof.
  intros H. destruct (Nat.lt_ge_cases i (List.length l)) as [Hlt | Hge].
  - left. rewrite nth_error_app1 in H by exact Hlt. exact H.
  - right. rewrite nth_error_app2 in H by exact Hge.
    destruct (i - List.length l) as [ | n] eqn:E; simpl in H.
    + inversion H. split; [ lia | reflexivity ].
    + destruct n; discriminate.
Qed.

(** What the image handler can store is a data URL. *)
Lemma image_try_data_url (r : FetchResult) (u : string) :
  image_try host r = Normal u -> data_url u.
Proof.
  unfold image_try. destruct r as [ | status body]; [ discriminate | ].
  destruct (negb (ok status)); [ discriminate | ].
  destruct body as [result | ]; [ | discriminate ].
  destruct (get result "predictions") as [predictions | ]; simpl; [ | discriminate ].
  match goal with
  | |- bind ?c _ = _ -> _ => destruct c as [[ | ] | ]; simpl; try discriminate
  end.
  destruct (get0 predictions) as [first | ]; simpl; [ | discriminate ].
  destruct (get first "bytesBase64Encoded") as [bytes | ]; simpl; [ | discriminate ].
  destruct (to_string host bytes) as [encoded | ]; simpl; [ | discriminate ].
  intros H. inversion H. exists encoded. reflexivity.
Qed.

(** Everything the guide handler does to the world after its request
    settled, but for the guide it stores. *)
Lemma guide_resume_effect (qid : nat) (r : FetchResult) (w : World) :
  let w' := handleGetGuide_resume host qid r w in
  loading (app w') = false /\
  location (app w') = location (app w) /\
  query w' = query w /\
  (error (app w') = error (app w) \/ error (app w') = Some guide_failed_message) /\
  ((network w' = network w /\ inflight w' = inflight w /\
    imageUrl (app w') = imageUrl (app w) /\
    isImageLoading (app w') = isImageLoading (app w))
   \/
   (exists p,
      network w' = (network w ++ [(qid, Predict (key_text host) p)])%list /\
      inflight w' = (inflight w ++ [List.length (network w)])%list /\
      imageUrl (app w') = None /\
      isImageLoading (app w') = true)).
Proof.
  unfold handleGetGuide_resume.
  destruct (guide_try host r) as [parsed | e]; simpl.
  - destruct (get parsed "imageGenPrompt") as [p | e]; simpl.
    + destruct (truthy p); simpl.
      * repeat split; auto. right. exists p. repeat split.
      * repeat split; auto.
    + repeat split; auto.
  - repeat split; auto.
Qed.

Lemma kinds_differ (x y : nat * Request) (i j : nat) (l : list (nat * Request)) :
  nth_error l i = Some x -> nth_error l j = Some y ->
  is_guide_request x = true -> is_guide_request y = false -> i <> j.
Proof.
  intros Hx Hy Gx Gy ->. rewrite Hx in Hy. inversion Hy; subst. congruence.
Qed.

Lemma Inv2_initial : Inv2 host initial.
Proof.
  constructor; simpl; try discriminate; try contradiction; auto.
  - intros j qid k p Hj. destruct j; discriminate.
  - intros i j qid k1 t1 k2 t2 Hi. destruct i; discriminate.
Qed.

Lemma Inv2_change (w : World) (value : string) :
  Inv2 host w -> Inv2 host (update (setLocation value) w).
Proof.
  intros [L A IL IU K E P D]. constructor; simpl; auto.
Qed.

Lemma Inv2_submit (w : World) :
  Inv w -> Inv2 host w -> loading (app w) = false ->
  Inv2 host (handleGetGuide host w).
Proof.
  intros HI H2 Hl.
  unfold handleGetGuide.
  destruct (String.eqb (location (app w)) "").
  { destruct H2 as [L A IL IU K E P D].
    constructor; simpl; auto. intros F. congruence. }
  destruct (key_missing host) eqn:Hk; destruct H2 as [L A IL IU K E P D].
  { constructor; simpl; auto; try discriminate. }
  constructor; simpl.
  - intros _. repeat split.
    exists (List.length (network w)), (S (query w),
      GenerateContent (key_text host) (guide_prompt (location (app w)))).
    repeat split.
    + apply In_snoc. now right.
    + apply nth_error_snoc_new.
  - intros i x Hi Hx Hg. apply In_snoc in Hi. destruct Hi as [Hi | ->].
    + rewrite nth_error_snoc_old in Hx by (apply (inv_bound w HI), Hi).
      rewrite (idle_no_guide w i x HI Hl Hi Hx) in Hg. discriminate.
    + rewrite length_app. simpl. lia.
  - intros Ht. destruct (IL Ht) as (j & y & Hj & Hy & Gy).
    exists j, y. repeat split; auto.
    + apply In_snoc. now left.
    + now apply nth_error_snoc_some.
  - discriminate.
  - intros qid r Hr. apply In_snoc in Hr. destruct Hr as [Hr | Hr].
    + exact (K qid r Hr).
    + inversion Hr; subst. auto.
  - auto.
  - intros j qid k p Hj. apply nth_error_snoc_inv in Hj.
    destruct Hj as [Hj | [_ Hj]]; [ | discriminate ].
    destruct (P j qid k p Hj) as (j' & key & text & -> & Hj').
    exists j', key, text. split; [ reflexivity | ].
    now apply nth_error_snoc_some.
  - intros i j qid k1 t1 k2 t2 Hi Hj.
    apply nth_error_snoc_inv in Hi. apply nth_error_snoc_inv in Hj.
    destruct Hi as [Hi | [-> Hi]]; destruct Hj as [Hj | [-> Hj]].
    + exact (D i j qid k1 t1 k2 t2 Hi Hj).
    + inversion Hj; subst. apply nth_error_In, (inv_query w HI) in Hi. lia.
    + inversion Hi; subst. apply nth_error_In, (inv_query w HI) in Hj. lia.
    + reflexivity.
Qed.

Lemma Inv2_image_settled (w : World) (i : nat) (r : FetchResult) (x : nat * Request) :
  Inv2 host w -> In i (inflight w) -> nth_error (network w) i = Some x ->
  is_guide_request x = false ->
  Inv2 host (handleGenerateImage_resume host r (settle i w)).
Proof.
  intros [L A IL IU K E P D] Hi Hx Hg.
  destruct (image_resume_frame host r (settle i w))
    as (En & Ei & Eq & _ & _ & Eg & El & Ee & Eil & Eu).
  change (app (settle i w)) with (app w) in *.
  change (network (settle i w)) with (network w) in *.
  constructor; unfold pending; rewrite ?En, ?Ei, ?Eg, ?El, ?Ee, ?Eil; simpl; auto.
  - intros Ht. destruct (L Ht) as (Hgn & Hen & (j & y & Hj & Hy & Gy)).
    repeat split; auto. exists j, y. repeat split; auto.
    apply In_settle. split; [ exact Hj | ].
    exact (kinds_differ y x j i _ Hy Hx Gy Hg).
  - intros j y Hj. apply In_settle in Hj. apply A, Hj.
  - discriminate.
  - intros u Hu. split; [ reflexivity | ].
    destruct (image_try host r) as [url | e] eqn:Et; simpl in Hu.
    + inversion Hu; subst. eapply image_try_data_url; eauto.
    + apply (IU u Hu).
Qed.

Lemma Inv2_guide_settled (w : World) (i : nat) (r : FetchResult) (x : nat * Request) :
  Inv w -> Inv2 host w -> In i (inflight w) -> nth_error (network w) i = Some x ->
  is_guide_request x = true ->
  Inv2 host (handleGetGuide_resume host (fst x) r (settle i w)).
Proof.
  intros HI [L A IL IU K E P D] Hi Hx Hg.
  destruct (guide_resume_effect (fst x) r (settle i w))
    as (El & _ & _ & Ee & Hs).
  change (app (settle i w)) with (app w) in *.
  change (network (settle i w)) with (network w) in *.
  assert (others : forall j y,
             In j (filter (fun k => negb (Nat.eqb k i)) (inflight w)) ->
             nth_error (network w) j = Some y ->
             is_guide_request y = false).
  { intros j y Hj Hy. apply In_settle in Hj. destruct Hj as [Hj Hne].
    destruct (is_guide_request y) eqn:Ey; [ | reflexivity ].
    elim Hne. exact (inv_one w HI j i y x Hj Hy Ey Hi Hx Hg). }
  assert (error (app (handleGetGuide_resume host (fst x) r (settle i w))) = None \/
          error (app (handleGetGuide_resume host (fst x) r (settle i w)))
            = Some empty_query_message \/
          error (app (handleGetGuide_resume host (fst x) r (settle i w)))
            = Some guide_failed_message) as E'.
  { destruct Ee as [Ee | Ee]; rewrite Ee; auto. }
  destruct Hs as [(En & Ei & Eu & Eil) | (p & En & Ei & Eu & Eil)].
  - constructor; unfold pending; rewrite ?En, ?Ei, ?Eu, ?Eil, ?El; simpl;
      auto; try discriminate.
    + intros j y Hj Hy Gy. rewrite (others j y Hj Hy) in Gy. discriminate.
    + intros Ht. destruct (IL Ht) as (j & y & Hj & Hy & Gy).
      exists j, y. repeat split; auto. apply In_settle. split; [ exact Hj | ].
      intros ->. rewrite Hx in Hy. inversion Hy; subst.
      unfold is_image_request in Gy. rewrite Hg in Gy. discriminate.
  - constructor; unfold pending; rewrite ?En, ?Ei, ?Eu, ?Eil, ?El; simpl;
      try discriminate; auto.
    + intros j y Hj Hy Gy. apply In_snoc in Hj. destruct Hj as [Hj | ->].
      * pose proof Hj as Hj'. apply In_settle in Hj'.
        rewrite nth_error_snoc_old in Hy by (apply (inv_bound w HI), Hj').
        rewrite (others j y Hj Hy) in Gy. discriminate.
      * rewrite nth_error_snoc_new in Hy. inversion Hy; subst. discriminate.
    + intros _. eexists. eexists. repeat split.
      * apply In_snoc. right. reflexivity.
      * apply nth_error_snoc_new.
      * reflexivity.
    + intros qid r0 Hr. apply In_snoc in Hr. destruct Hr as [Hr | Hr].
      * exact (K qid r0 Hr).
      * inversion Hr; subst. split; [ | reflexivity ].
        destruct x as [q0 r1]. apply nth_error_In in Hx.
        apply (K q0 r1 Hx).
    + intros j qid k p0 Hj. apply nth_error_snoc_inv in Hj.
      destruct Hj as [Hj | [-> Hj]].
      * destruct (P j qid k p0 Hj) as (j' & key & text & -> & Hj').
        exists j', key, text. split; [ reflexivity | ].
        now apply nth_error_snoc_some.
      * inversion Hj; subst. destruct x as [q0 [key text | ? ?]]; [ | discriminate ].
        exists i, key, text. split.
        { symmetry. exact (A i _ Hi Hx eq_refl). }
        { now apply nth_error_snoc_some. }
    + intros j1 j2 qid k1 t1 k2 t2 H1 H2.
      apply nth_error_snoc_inv in H1. apply nth_error_snoc_inv in H2.
      destruct H1 as [H1 | [_ H1]]; [ | discriminate ].
      destruct H2 as [H2 | [_ H2]]; [ | discriminate ].
      exact (D j1 j2 qid k1 t1 k2 t2 H1 H2).
Qed.

Lemma step_Inv2 (w : World) (e : Event) (w' : World) :
  Inv w -> Inv2 host w -> step host w e = Some w' -> Inv2 host w'.
Proof.
  intros HI H2 Hs. destruct e as [value | | i r].
  - inversion Hs. now apply Inv2_change.
  - simpl in Hs. destruct (loading (app w)) eqn:El; inversion Hs.
    now apply Inv2_submit.
  - apply settle_request in Hs.
    destruct Hs as (Hi & x & Hx & [[Hg ->] | [Hg ->]]).
    + eapply Inv2_guide_settled; eauto.
    + eapply Inv2_image_settled; eauto.
Qed.

Lemma reachable_Inv2 (w : World) : reachable host w -> Inv2 host w.
Proof.
  induction 1 as [ | w e w' Hr IH Hs]; [ apply Inv2_initial | ].
  eapply step_Inv2; eauto. eapply reachable_Inv; eauto.
Qed.

Lemma pending_guide_loading (w : World) :
  Inv w -> pending is_guide_request w -> loading (app w) = true.
Proof.
  intros HI (i & x & Hi & Hx & Hg). apply (inv_guide w HI i x Hi Hx Hg).
Qed.

Lemma no_index_nil (l : list nat) : (forall i, ~ In i l) -> l = [].
Proof.
  destruct l as [ | i l]; [ reflexivity | ].
  intros H. elim (H i). now left.
Qed.

(** X1.  The spinner and the disabled submit button stand for exactly
    one thing: in every reachable world [loading] holds if and only if a
    guide request is in flight, and at most one guide request is in
    flight at a time. *)
Theorem loading_iff_guide_request_pending (w : World) :
  reachable host w ->
  (loading (app w) = true <-> pending is_guide_request w) /\
  (forall i j x y,
     In i (inflight w) -> nth_error (network w) i = Some x ->
     is_guide_request x = true ->
     In j (inflight w) -> nth_error (network w) j = Some y ->
     is_guide_request y = true ->
     i = j /\ S i = List.length (network w) /\ fst x = query w).
Proof.
  intros Hr. pose proof (reachable_Inv host w Hr) as HI.
  pose proof (reachable_Inv2 w Hr) as H2. split.
  - split; [ apply (inv_loading host w H2) | now apply pending_guide_loading ].
  - intros i j x y Hi Hx Gx Hj Hy Gy. repeat split.
    + exact (inv_one w HI i j x y Hi Hx Gx Hj Hy Gy).
    + exact (inv_last host w H2 i x Hi Hx Gx).
    + apply (inv_guide w HI i x Hi Hx Gx).
Qed.

(** X2.  While the spinner shows, nothing else does: in every reachable
    world with [loading] on, the render succeeds and shows the spinner
    and the disabled button labelled ['Exploring...'], no error banner
    and no guide card. *)
Theorem spinner_shows_alone (w : World) :
  reachable host w ->
  loading (app w) = true ->
  render (app w)
  = Normal {| view_search :=
                {| input_value := location (app w); button_disabled := true;
                   button_label := "Exploring..." |};
              view_banner := None;
              view_spinner := true;
              view_card := Bare Null |}.
Proof.
  intros Hr Hl. pose proof (reachable_Inv2 w Hr) as H2.
  destruct (inv_loading host w H2 Hl) as (Hg & He & _).
  unfold render, SearchBar. rewrite Hg, He, Hl. reflexivity.
Qed.

(** X3.  No indicator without a pending request: in every reachable
    world the image placeholder flag is on only while an image request
    is in flight, and once nothing is in flight both [loading] and
    [isImageLoading] are off. *)
Theorem indicators_need_pending_requests (w : World) :
  reachable host w ->
  (isImageLoading (app w) = true -> pending is_image_request w) /\
  (inflight w = [] ->
   loading (app w) = false /\ isImageLoading (app w) = false).
Proof.
  intros Hr. pose proof (reachable_Inv2 w Hr) as H2. split.
  - apply (inv_image_loading host w H2).
  - intros Hn. split.
    + destruct (loading (app w)) eqn:El; [ | reflexivity ].
      destruct (inv_loading host w H2 El) as (_ & _ & (i & x & Hi & _)).
      rewrite Hn in Hi. contradiction.
    + destruct (isImageLoading (app w)) eqn:El; [ | reflexivity ].
      destruct (inv_image_loading host w H2 El) as (i & x & Hi & _).
      rewrite Hn in Hi. contradiction.
Qed.

Lemma card_of_render (s : AppState) (v : AppView) (c : GuideCardView) :
  render s = Normal v -> view_card v = Card c ->
  GuideCard (guide s) (imageUrl s) (isImageLoading s) = Normal c.
Proof.
  unfold render. destruct (truthy (guide s)); simpl.
  - destruct (GuideCard _ _ _) as [c0 | e]; simpl; intros H; inversion H; subst.
    simpl. intros E. inversion E. reflexivity.
  - intros H. inversion H; subst. simpl. discriminate.
Qed.

Lemma card_image (g : Value) (url : option string) (b : bool) (c : GuideCardView) :
  GuideCard g url b = Normal c ->
  card_placeholder c = b /\
  forall i, card_img c = Some i -> url = Some (img_src i).
Proof.
  unfold GuideCard.
  match goal with
  | |- bind ?c0 _ = _ -> _ => destruct c0 as [image | ] eqn:Ei; simpl; [ | discriminate ]
  end.
  destruct (get g "locationName"); simpl; [ | discriminate ].
  destruct (get g "mustTryDishes"); simpl; [ | discriminate ].
  destruct (array_map dish_item _); simpl; [ | discriminate ].
  destruct (get g "etiquetteTip"); simpl; [ | discriminate ].
  destruct (get g "restaurantSuggestion"); simpl; [ | discriminate ].
  intros H. inversion H; subst; simpl. split; [ reflexivity | ].
  intros i ->. destruct url as [u | ]; [ | discriminate ].
  destruct (String.eqb u ""); [ discriminate | ].
  simpl in Ei.
  repeat match type of Ei with
         | bind ?c0 _ = _ => destruct c0; simpl in Ei; [ | discriminate ]
         end.
  inversion Ei. reflexivity.
Qed.

(** X4.  What is stored as the image is a PNG data URL, and it is never
    shown together with the placeholder: in every reachable world a
    present [imageUrl] starts with ['data:image/png;base64,'] and
    [isImageLoading] is off, so a rendered card with an image has no
    placeholder. *)
Theorem image_is_data_url_without_placeholder (w : World) :
  reachable host w ->
  (forall u, imageUrl (app w) = Some u ->
     data_url u /\ isImageLoading (app w) = false) /\
  (forall v c i, render (app w) = Normal v -> view_card v = Card c ->
     card_img c = Some i ->
     card_placeholder c = false /\ data_url (img_src i)).
Proof.
  intros Hr. pose proof (reachable_Inv2 w Hr) as H2. split.
  - intros u Hu. destruct (inv_image_url host w H2 u Hu). auto.
  - intros v c i Hv Hc Hi.
    destruct (card_image _ _ _ c (card_of_render _ v c Hv Hc)) as [Hp Hu].
    destruct (inv_image_url host w H2 _ (Hu i Hi)) as [Hl Hd].
    split; [ congruence | exact Hd ].
Qed.

(** X5.  No request leaves without the API key: in every reachable world
    every request that was sent carries the configured key, and on a host
    without a key nothing was ever sent and nothing is in flight. *)
Theorem no_request_without_key (w : World) :
  reachable host w ->
  (forall qid r, In (qid, r) (network w) ->
     request_key r = key_text host /\ key_missing host = false) /\
  (key_missing host = true -> network w = [] /\ inflight w = []).
Proof.
  intros Hr. pose proof (reachable_Inv host w Hr) as HI.
  pose proof (reachable_Inv2 w Hr) as H2. split.
  - intros qid r Hin. destruct (inv_keys host w H2 qid r Hin). auto.
  - intros Hk.
    assert (network w = []) as Hn.
    { destruct (network w) as [ | [qid r] l] eqn:E; [ reflexivity | ].
      destruct (inv_keys host w H2 qid r) as [F _]; [ rewrite E; now left | ].
      congruence. }
    split; [ exact Hn | ].
    apply no_index_nil. intros i Hi.
    apply (inv_bound w HI) in Hi. rewrite Hn in Hi. simpl in Hi. lia.
Qed.

(** X6.  At most one image request per search, sent right after the
    guide request of that search: in every reachable world an image
    request in the log is directly preceded by the guide request of the
    same search, and two image requests of one search are the same
    request. *)
Theorem one_image_request_per_search (w : World) :
  reachable host w ->
  (forall j qid k p,
     nth_error (network w) j = Some (qid, Predict k p) ->
     exists j' key text,
       j = S j' /\ nth_error (network w) j' = Some (qid, GenerateContent key text)) /\
  (forall j1 j2 qid k1 p1 k2 p2,
     nth_error (network w) j1 = Some (qid, Predict k1 p1) ->
     nth_error (network w) j2 = Some (qid, Predict k2 p2) ->
     j1 = j2).
Proof.
  intros Hr. pose proof (reachable_Inv2 w Hr) as H2. split.
  - apply (inv_pairs host w H2).
  - intros j1 j2 qid k1 p1 k2 p2 H1 H3.
    destruct (inv_pairs host w H2 _ _ _ _ H1) as (a & ka & ta & -> & Ha).
    destruct (inv_pairs host w H2 _ _ _ _ H3) as (b & kb & tb & -> & Hb).
    f_equal. exact (inv_distinct host w H2 _ _ _ _ _ _ _ Ha Hb).
Qed.

(** X7.  The user only ever reads one of the two fixed messages: in
    every reachable world [error] is absent, the empty-query message or
    the generic failure message, whatever the endpoints answered; no
    status code or response text reaches the banner. *)
Theorem banner_shows_fixed_messages (w : World) :
  reachable host w ->
  banner (error (app w)) = None \/
  banner (error (app w)) = Some empty_query_message \/
  banner (error (app w)) = Some guide_failed_message.
Proof.
  intros Hr. pose proof (reachable_Inv2 w Hr) as H2.
  destruct (inv_error host w H2) as [E | [E | E]]; rewrite E; simpl; auto.
Qed.

Lemma truthy_defined (v : Value) : truthy v = true -> nullish v = false.
Proof. destruct v; simpl; intros H; try reflexivity; discriminate. Qed.

Lemma get_opt_get (v : Value) (k : string) (x : Value) :
  get v k = Normal x -> opt_get v k = x.
Proof. unfold opt_get. now intros ->. Qed.

Lemma dish_item_normal (d : Value) (x : DishItem) :
  dish_item d = Normal x <-> nullish d = false /\ x = shown_dish d.
Proof.
  unfold dish_item, shown_dish, opt_get.
  destruct d; simpl;
    (split;
     [ intros H; try discriminate; inversion H; split; reflexivity
     | intros [Hn Hx]; try discriminate; subst; reflexivity ]).
Qed.

Lemma traverse_dishes (items : list Value) (l : list DishItem) :
  traverse dish_item items = Normal l <->
  Forall (fun d => nullish d = false) items /\ l = map shown_dish items.
Proof.
  revert l. induction items as [ | d items IH]; simpl; intros l.
  - split.
    + intros H. inversion H. auto.
    + intros [_ ->]. reflexivity.
  - destruct (dish_item d) as [x | e] eqn:Ed; simpl.
    + apply dish_item_normal in Ed. destruct Ed as [Hd ->].
      destruct (traverse dish_item items) as [l' | e] eqn:Et; simpl.
      * destruct (proj1 (IH l') eq_refl) as [Hf ->]. split.
        { intros H. inversion H. auto. }
        { intros [_ ->]. reflexivity. }
      * split; [ discriminate | ].
        intros [Hf _]. apply Forall_cons_iff in Hf. destruct Hf as [_ Hf].
        pose proof (proj2 (IH (map shown_dish items)) (conj Hf eq_refl)) as F.
        discriminate F.
    + split; [ discriminate | ].
      intros [Hf _]. apply Forall_cons_iff in Hf. destruct Hf as [Hd _].
      pose proof (proj2 (dish_item_normal d (shown_dish d)) (conj Hd eq_refl)) as F.
      rewrite Ed in F. discriminate F.
Qed.

Lemma traverse_dishes_throw (items : list Value) (e : Thrown) :
  traverse dish_item items = Throw e -> e = TypeError.
Proof.
  induction items as [ | d items IH]; simpl; [ discriminate | ].
  destruct (dish_item d) as [x | e0] eqn:Ed; simpl.
  - destruct (traverse dish_item items); simpl; [ discriminate | ].
    intros H. inversion H; subst. now apply IH.
  - intros H. inversion H; subst. unfold dish_item in Ed.
    destruct (get d "name") eqn:E1; simpl in Ed.
    + destruct (get d "description") eqn:E2; simpl in Ed; [ discriminate | ].
      inversion Ed; subst. now apply get_throws in E2.
    + inversion Ed; subst. now apply get_throws in E1.
Qed.

(** The card of a guide that is not nullish, step by step. *)
Lemma GuideCard_cases (g : Value) (url : option string) (b : bool) :
  nullish g = false ->
  (exists items,
     get g "mustTryDishes" = Normal (Array items) /\
     Forall (fun d => nullish d = false) items /\
     exists c,
       GuideCard g url b = Normal c /\
       card_placeholder c = b /\
       get g "locationName" = Normal (card_title c) /\
       card_dishes c = map shown_dish items /\
       get g "etiquetteTip" = Normal (card_etiquette c) /\
       get g "restaurantSuggestion" = Normal (card_restaurant c))
  \/
  ((forall items, get g "mustTryDishes" = Normal (Array items) ->
      ~ Forall (fun d => nullish d = false) items) /\
   GuideCard g url b = Throw TypeError).
Proof.
  intros Hg.
  destruct (get_defined g "locationName" Hg) as (title & Et).
  destruct (get_defined g "mustTryDishes" Hg) as (dishes & Ed).
  destruct (get_defined g "etiquetteTip" Hg) as (tip & Ee).
  destruct (get_defined g "restaurantSuggestion" Hg) as (sug & Er).
  unfold GuideCard. rewrite Et, Ed, Ee, Er.
  destruct dishes as [ | | ? | ? | ? | items | ? ];
    try (right; split; [ intros items; discriminate | ];
         destruct url as [u | ]; [ destruct (String.eqb u "") | ];
         simpl; try reflexivity;
         match goal with
         | |- context [js_or ?a ?c] => unfold js_or; destruct (truthy a)
         end; reflexivity).
  assert (exists image,
    match url with
    | Some u =>
        if String.eqb u "" then Normal None
        else
          dishes <- Normal (Array items) ;;
          first <- get0 dishes ;;
          alt <- js_or (opt_get first "name") (Normal title) ;;
          Normal (Some {| img_src := u; img_alt := alt |})
    | None => Normal None
    end = Normal image) as (image & Ei).
  { destruct url as [u | ]; [ destruct (String.eqb u "") | ]; simpl; eauto.
    unfold js_or. destruct (truthy _); simpl; eauto. }
  rewrite Ei. simpl.
  destruct (traverse dish_item items) as [l | e] eqn:Etr; simpl.
  - apply traverse_dishes in Etr. destruct Etr as [Hf ->].
    left. exists items. repeat split; auto.
    eexists. repeat split.
  - right. split.
    + intros items' E Hf. inversion E; subst items'.
      pose proof (proj2 (traverse_dishes items (map shown_dish items))
                    (conj Hf eq_refl)) as F.
      rewrite Etr in F. discriminate F.
    + apply traverse_dishes_throw in Etr. now subst.
Qed.

Lemma has_string_defined (v : Value) (k : string) :
  has_string v k = true -> nullish v = false.
Proof.
  unfold has_string. destruct v; simpl; try reflexivity; discriminate.
Qed.

Lemma conforming_dishes (g : Value) :
  guide_conforms g = true ->
  nullish g = false /\ truthy g = true /\
  exists items,
    get g "mustTryDishes" = Normal (Array items) /\
    Forall (fun d => nullish d = false) items.
Proof.
  unfold guide_conforms. intros H.
  repeat (apply Bool.andb_true_iff in H; destruct H as [H ?]).
  pose proof (has_string_defined g "locationName" H) as Hn.
  repeat split; [ exact Hn | | ].
  - unfold has_string in H. destruct g; simpl in *; try discriminate; reflexivity.
  - destruct (get g "mustTryDishes") as [[ | | | | | items | ] | ];
      try discriminate.
    exists items. split; [ reflexivity | ].
    apply Forall_forall. intros d Hd.
    match goal with
    | F : forallb dish_conforms items = true |- _ =>
        rewrite forallb_forall in F; specialize (F d Hd);
        apply Bool.andb_true_iff in F; destruct F as [F _]
    end.
    now apply (has_string_defined d "name").
Qed.

(** A guide that conforms to the schema renders, whatever the image
    state. *)
Lemma render_conforming (s : AppState) :
  guide_conforms (guide s) = true ->
  exists v c, render s = Normal v /\ view_card v = Card c /\
              GuideCard (guide s) (imageUrl s) (isImageLoading s) = Normal c.
Proof.
  intros Hc. destruct (conforming_dishes _ Hc) as (Hn & Ht & items & Ed & Hf).
  unfold render. rewrite Ht.
  destruct (GuideCard_cases (guide s) (imageUrl s) (isImageLoading s) Hn)
    as [(items' & _ & _ & c & Ec & _) | [Hno _]].
  - rewrite Ec. simpl. eexists. exists c. repeat split.
  - elim (Hno items Ed Hf).
Qed.

(** X8.  The render of [App] can succeed only when the stored guide is
    falsy or has a [mustTryDishes] array without null items ([GuideCard]
    throws otherwise), and it does succeed, showing the card, when the
    guide conforms to the schema sent to the service. *)
Theorem render_needs_dishes_and_shows_conforming_guide (s : AppState) :
  ((exists v, render s = Normal v) ->
   truthy (guide s) = false \/
   exists items,
     get (guide s) "mustTryDishes" = Normal (Array items) /\
     Forall (fun d => nullish d = false) items) /\
  (guide_conforms (guide s) = true ->
   exists v c, render s = Normal v /\ view_card v = Card c).
Proof.
  split.
  - intros [v Hv]. unfold render in Hv.
    destruct (truthy (guide s)) eqn:Et; [ | now left ].
    destruct (GuideCard_cases (guide s) (imageUrl s) (isImageLoading s)
                (truthy_defined _ Et))
      as [(items & Ed & Hf & _) | [_ Ec]].
    + right. eauto.
    + rewrite Ec in Hv. discriminate.
  - intros Hc. destruct (render_conforming s Hc) as (v & c & Hv & Hcard & _).
    eauto.
Qed.

(** X9.  A rendered card shows what the guide holds: its title is the
    guide's [locationName], it lists every item of [mustTryDishes] in
    order with its [name] and [description], and the tip and the
    suggestion are the guide's. *)
Theorem card_lists_every_dish_in_order (s : AppState) (v : AppView) (c : GuideCardView) :
  render s = Normal v ->
  view_card v = Card c ->
  exists items,
    get (guide s) "mustTryDishes" = Normal (Array items) /\
    card_dishes c = map shown_dish items /\
    get (guide s) "locationName" = Normal (card_title c) /\
    get (guide s) "etiquetteTip" = Normal (card_etiquette c) /\
    get (guide s) "restaurantSuggestion" = Normal (card_restaurant c) /\
    card_placeholder c = isImageLoading s.
Proof.
  intros Hv Hc. pose proof (card_of_render s v c Hv Hc) as Hcard.
  assert (truthy (guide s) = true) as Et.
  { unfold render in Hv. destruct (truthy (guide s)); [ reflexivity | ].
    simpl in Hv. inversion Hv; subst. discriminate. }
  destruct (GuideCard_cases (guide s) (imageUrl s) (isImageLoading s)
              (truthy_defined _ Et))
    as [(items & Ed & Hf & c' & Ec & Hp & Ht & Hd & He & Hr) | [_ Ec]];
    rewrite Ec in Hcard; inversion Hcard; subst c'.
  exists items. auto 10.
Qed.

Lemma guide_resume_stores (qid : nat) (r : FetchResult) (parsed : Value) (w : World) :
  guide_try host r = Normal parsed -> nullish parsed = false ->
  guide (app (handleGetGuide_resume host qid r w)) = parsed /\
  error (app (handleGetGuide_resume host qid r w)) = error (app w) /\
  imageUrl (app (handleGetGuide_resume host qid r w))
    = (if truthy (opt_get parsed "imageGenPrompt") then None else imageUrl (app w)) /\
  isImageLoading (app (handleGetGuide_resume host qid r w))
    = (if truthy (opt_get parsed "imageGenPrompt") then true
       else isImageLoading (app w)).
Proof.
  intros Ht Hn. unfold handleGetGuide_resume. rewrite Ht.
  destruct (get_defined parsed "imageGenPrompt" Hn) as (p & Ep).
  rewrite Ep, (get_opt_get _ _ _ Ep).
  destruct (truthy p); simpl; auto.
Qed.

(** X10.  Nothing stands between an unchecked guide and the render: a
    guide response whose text parses to a truthy value without a
    [mustTryDishes] array of non-null items is stored with no error, and
    the render of the resulting state throws. *)
Theorem unchecked_guide_breaks_render
  (w : World) (qid : nat) (status : N) (result : Value) (text : string)
  (parsed : Value) :
  ok status = true ->
  nested_text result = Normal (Str text) ->
  text <> "" ->
  JSON.parse text = Some parsed ->
  truthy parsed = true ->
  (forall items, get parsed "mustTryDishes" = Normal (Array items) ->
     ~ Forall (fun d => nullish d = false) items) ->
  let w' := handleGetGuide_resume host qid (Responded status (Some result)) w in
  guide (app w') = parsed /\
  error (app w') = error (app w) /\
  render (app w') = Throw TypeError.
Proof.
  intros Hs Ht Hne Hp Htr Hno w'.
  assert (guide_try host (Responded status (Some result)) = Normal parsed) as Hg.
  { rewrite (guide_try_text host status result text Hs Ht Hne), Hp. reflexivity. }
  destruct (guide_resume_stores qid _ parsed w Hg (truthy_defined _ Htr))
    as (Eg & Ee & _).
  fold w' in Eg, Ee. repeat split; auto.
  unfold render. rewrite Eg, Htr.
  destruct (GuideCard_cases parsed (imageUrl (app w')) (isImageLoading (app w'))
              (truthy_defined _ Htr))
    as [(items & Ed & Hf & _) | [_ Ec]].
  - elim (Hno items Ed Hf).
  - rewrite Ec. reflexivity.
Qed.

Lemma image_try_png (encoded : string) :
  encoded <> "" ->
  image_try host (image_response [png encoded])
  = Normal ("data:image/png;base64," ++ encoded).
Proof.
  intros Hne. apply String.eqb_neq in Hne.
  unfold image_try, image_response, png. simpl. rewrite Hne. reflexivity.
Qed.

Lemma render_falsy (s : AppState) :
  truthy (guide s) = false -> exists v, render s = Normal v.
Proof.
  intros Ht. unfold render. rewrite Ht. simpl. eauto.
Qed.

Lemma GuideCard_image (g : Value) (u : string) (b : bool) (c : GuideCardView) :
  GuideCard g (Some u) b = Normal c -> u <> "" ->
  card_placeholder c = b /\
  exists alt, card_img c = Some {| img_src := u; img_alt := alt |}.
Proof.
  intros H Hu. apply String.eqb_neq in Hu. unfold GuideCard in H. rewrite Hu in H.
  match type of H with
  | bind ?c0 _ = _ => destruct c0 as [image | ] eqn:Ei; simpl in H; [ | discriminate ]
  end.
  repeat match type of H with
         | bind ?c0 _ = _ => destruct c0; simpl in H; [ | discriminate ]
         end.
  inversion H; subst; simpl. split; [ reflexivity | ].
  simpl in Ei.
  repeat match type of Ei with
         | bind ?c0 _ = _ => destruct c0; simpl in Ei; [ | discriminate ]
         end.
  inversion Ei. eauto.
Qed.

(** X11.  The two stages compose: from a state that renders (no guide
    on display, or one that conforms to the schema) with the button
    enabled, a non-empty location and an API key, a submit, a guide
    response of the documented shape whose text parses to a guide that
    conforms to the schema and has a non-empty [imageGenPrompt], and an
    image response with one encoded prediction are handled one after the
    other, every state on the way renders, and at the end the parsed
    guide and the image's data URL are on display, with no error, both
    indicators off, and exactly two requests sent, the second carrying
    the guide's prompt. *)
Theorem search_succeeds
  (w : World) (text encoded : string) (parsed prompt : Value) :
  loading (app w) = false ->
  location (app w) <> "" ->
  key_missing host = false ->
  truthy (guide (app w)) = false \/ guide_conforms (guide (app w)) = true ->
  text <> "" ->
  JSON.parse text = Some parsed ->
  guide_conforms parsed = true ->
  get parsed "imageGenPrompt" = Normal prompt ->
  truthy prompt = true ->
  encoded <> "" ->
  let i := List.length (network w) in
  exists w1 w2 w',
    step host w Submit = Some w1 /\
    step host w1 (Settle i (guide_response text)) = Some w2 /\
    step host w2 (Settle (S i) (image_response [png encoded])) = Some w' /\
    (exists v, render (app w) = Normal v) /\
    (exists v, render (app w1) = Normal v) /\
    (exists v, render (app w2) = Normal v) /\
    (exists v c alt,
       render (app w') = Normal v /\ view_card v = Card c /\
       card_placeholder c = false /\
       card_img c = Some {| img_src := "data:image/png;base64," ++ encoded;
                            img_alt := alt |}) /\
    run host w [ Submit; Settle i (guide_response text);
                 Settle (S i) (image_response [png encoded]) ] = Some w' /\
    guide (app w') = parsed /\
    error (app w') = None /\
    imageUrl (app w') = Some ("data:image/png;base64," ++ encoded) /\
    loading (app w') = false /\
    isImageLoading (app w') = false /\
    location (app w') = location (app w) /\
    network w'
    = (network w
       ++ [ (S (query w),
             GenerateContent (key_text host) (guide_prompt (location (app w))));
            (S (query w), Predict (key_text host) prompt) ])%list.
Proof.
  intros Hl Hloc Hk Hw Hne Hp Hconf Hget Htr Henc i.
  pose proof Hloc as Hloc'. apply String.eqb_neq in Hloc'.
  set (q := S (query w)).
  set (a := (q, GenerateContent (key_text host) (guide_prompt (location (app w))))).
  set (b := (q, Predict (key_text host) prompt)).
  set (w1 := handleGetGuide host w).
  assert (network w1 = (network w ++ [a])%list /\
          inflight w1 = (inflight w ++ [i])%list /\
          location (app w1) = location (app w) /\
          guide (app w1) = Null) as (N1 & I1 & L1 & G1).
  { unfold w1, handleGetGuide. rewrite Hloc', Hk. simpl. auto. }
  assert (step host w Submit = Some w1) as S1.
  { simpl. rewrite Hl. reflexivity. }
  set (w2 := handleGetGuide_resume host q (guide_response text) (settle i w1)).
  assert (step host w1 (Settle i (guide_response text)) = Some w2) as S2.
  { apply (settle_guide host w1 i q (key_text host) (guide_prompt (location (app w)))).
    - rewrite I1. apply In_snoc. now right.
    - rewrite N1. apply nth_error_snoc_new. }
  assert (guide_try host (guide_response text) = Normal parsed) as G.
  { unfold guide_response.
    rewrite (guide_try_text host 200 (guide_body text) text eq_refl eq_refl Hne), Hp.
    reflexivity. }
  assert (network w2 = ((network w ++ [a]) ++ [b])%list /\
          In (S i) (inflight w2) /\
          guide (app w2) = parsed /\ error (app w2) = None /\
          loading (app w2) = false /\
          location (app w2) = location (app w)) as (N2 & I2 & G2 & E2 & Lo2 & L2).
  { unfold w2, handleGetGuide_resume. rewrite G, Hget, Htr. simpl.
    rewrite N1. repeat split.
    - apply In_snoc. right. rewrite length_app. simpl. unfold i. lia.
    - unfold w1, handleGetGuide. rewrite Hloc', Hk. reflexivity.
    - exact L1. }
  set (w3 := handleGenerateImage_resume host (image_response [png encoded])
               (settle (S i) w2)).
  assert (step host w2 (Settle (S i) (image_response [png encoded])) = Some w3) as S3.
  { apply (settle_image host w2 (S i) q (key_text host) prompt); [ exact I2 | ].
    rewrite N2. replace (S i) with (List.length (network w ++ [a])%list).
    - apply nth_error_snoc_new.
    - rewrite length_app. simpl. unfold i. lia. }
  destruct (image_resume_frame host (image_response [png encoded]) (settle (S i) w2))
    as (En & _ & _ & _ & El & Eg & Elo & Ee & Eil & Eu).
  fold w3 in En, El, Eg, Elo, Ee, Eil, Eu.
  rewrite (image_try_png encoded Henc) in Eu.
  change (app (settle (S i) w2)) with (app w2) in *.
  change (network (settle (S i) w2)) with (network w2) in *.
  exists w1, w2, w3.
  split; [ exact S1 | ]. split; [ exact S2 | ]. split; [ exact S3 | ].
  split.
  { destruct Hw as [Hw | Hw]; [ now apply render_falsy | ].
    destruct (render_conforming (app w) Hw) as (v & _ & Hv & _). eauto. }
  split.
  { apply render_falsy. rewrite G1. reflexivity. }
  split.
  { assert (guide_conforms (guide (app w2)) = true) as C2 by now rewrite G2.
    destruct (render_conforming (app w2) C2) as (v & _ & Hv & _). eauto. }
  split.
  { assert (guide_conforms (guide (app w3)) = true) as C3
      by (rewrite Eg, G2; exact Hconf).
    destruct (render_conforming (app w3) C3) as (v & c & Hv & Hc & Hcard).
    rewrite Eu, Eil in Hcard.
    destruct (GuideCard_image _ _ _ c Hcard) as (Hph & alt & Hi).
    { simpl. discriminate. }
    exists v, c, alt. auto. }
  split.
  { cbn [run]. rewrite S1, S2, S3. reflexivity. }
  repeat split; try congruence.
  rewrite En, N2, <- app_assoc. reflexivity.
Qed.

(** X12.  A guide request is sent by a submit of a non-empty location on
    a host with an API key and by nothing else: a turn of the event loop
    adds a guide request to the log if and only if it is such a submit,
    and the request then belongs to a new search and carries the key and
    the prompt built from the location as typed at that moment. *)
Theorem guide_request_iff_valid_submit
  (w : World) (e : Event) (w' : World) (qid : nat) (k text : string) :
  step host w e = Some w' ->
  (network w' = (network w ++ [(qid, GenerateContent k text)])%list <->
   e = Submit /\ location (app w) <> "" /\ key_missing host = false /\
   qid = S (query w) /\ k = key_text host /\
   text = guide_prompt (location (app w))).
Proof.
  intros Hs. split.
  - intros En. destruct e as [value | | i r].
    + inversion Hs; subst. simpl in En. elim (snoc_not_self _ _ En).
    + simpl in Hs. destruct (loading (app w)); inversion Hs; subst; clear Hs.
      unfold handleGetGuide in En.
      destruct (String.eqb (location (app w)) "") eqn:El; simpl in En;
        [ elim (snoc_not_self _ _ En) | ].
      destruct (key_missing host); simpl in En; [ elim (snoc_not_self _ _ En) | ].
      apply app_inj_tail in En. destruct En as [_ En]. inversion En; subst.
      apply String.eqb_neq in El. auto 10.
    + apply settle_request in Hs.
      destruct Hs as (_ & x & _ & [[_ ->] | [_ ->]]).
      * destruct (guide_resume_effect (fst x) r (settle i w))
          as (_ & _ & _ & _ & [(E & _) | (p & E & _)]);
          rewrite E in En; simpl in En.
        { elim (snoc_not_self _ _ En). }
        { apply app_inj_tail in En. destruct En as [_ En]. discriminate. }
      * destruct (image_resume_frame host r (settle i w)) as (E & _).
        rewrite E in En. simpl in En. elim (snoc_not_self _ _ En).
  - intros (-> & Hl & Hk & -> & -> & ->). apply String.eqb_neq in Hl.
    simpl in Hs. destruct (loading (app w)); inversion Hs; subst.
    unfold handleGetGuide. rewrite Hl, Hk. reflexivity.
Qed.

Lemma string_length_append (s t : string) :
  String.length (s ++ t)%string = String.length s + String.length t.
Proof.
  induction s as [ | c s IH]; simpl; [ reflexivity | now rewrite IH ].
Qed.

Lemma append_cancel_r (t : string) :
  forall a b : string, (a ++ t = b ++ t)%string -> a = b.
Proof.
  induction a as [ | c a IH]; intros [ | d b] H; simpl in H.
  - reflexivity.
  - apply (f_equal String.length) in H. simpl in H.
    rewrite string_length_append in H. lia.
  - apply (f_equal String.length) in H. simpl in H.
    rewrite string_length_append in H. lia.
  - inversion H; subst. f_equal. now apply IH.
Qed.

(** X13.  The prompt embeds the location as typed, so two different
    locations never give the same guide request. *)
Theorem guide_prompt_injective (a b : string) :
  guide_prompt a = guide_prompt b -> a = b.
Proof.
  unfold guide_prompt. intros H.
  apply (append_cancel_r
    ". I need a list of 3-5 must-try dishes, one etiquette tip, a restaurant suggestion, and a photorealistic image generation prompt for the most iconic dish. Respond in valid JSON.").
  simpl in H. inversion H. reflexivity.
Qed.

End Extras.

(** *** The further properties at concrete inputs *)

(** Rome was submitted and its guide request is pending. *)
Lemma loading_iff_guide_request_pending_witness :
  let w := after keyed [Change "Rome"; Submit] in
  reachable keyed w /\
  loading (app w) = true /\
  pending is_guide_request w.
Proof.
  intros w.
  assert (reachable keyed w) as Hr
    by (apply (play_reachable keyed [Change "Rome"; Submit]); by_evaluation).
  assert (loading (app w) = true) as Hl by by_evaluation.
  destruct (loading_iff_guide_request_pending keyed w Hr) as [Hiff _].
  repeat apply conj; [ exact Hr | exact Hl | exact (proj1 Hiff Hl) ].
Defined.

Lemma spinner_shows_alone_witness :
  let w := after keyed [Change "Rome"; Submit] in
  reachable keyed w /\
  loading (app w) = true /\
  exists v,
    render (app w) = Normal v /\
    view_spinner v = true /\ view_banner v = None /\ view_card v = Bare Null.
Proof.
  intros w.
  assert (reachable keyed w) as Hr
    by (apply (play_reachable keyed [Change "Rome"; Submit]); by_evaluation).
  assert (loading (app w) = true) as Hl by by_evaluation.
  repeat apply conj; [ exact Hr | exact Hl | ].
  eexists. split; [ exact (spinner_shows_alone keyed w Hr Hl) | ].
  repeat apply conj; reflexivity.
Defined.

(** Rome's guide is shown and its image is being generated. *)
Lemma indicators_need_pending_requests_witness :
  let w := after keyed [Change "Rome"; Submit; Settle 0 rome_guide] in
  reachable keyed w /\
  isImageLoading (app w) = true /\
  pending is_image_request w.
Proof.
  intros w.
  assert (reachable keyed w) as Hr
    by (apply (play_reachable keyed [Change "Rome"; Submit; Settle 0 rome_guide]);
        by_evaluation).
  assert (isImageLoading (app w) = true) as Hl by by_evaluation.
  destruct (indicators_need_pending_requests keyed w Hr) as [Hp _].
  repeat apply conj; [ exact Hr | exact Hl | exact (Hp Hl) ].
Defined.

Lemma image_is_data_url_without_placeholder_witness :
  reachable keyed rome_shown_input_emptied /\
  imageUrl (app rome_shown_input_emptied) = Some "data:image/png;base64,QUJD" /\
  data_url "data:image/png;base64,QUJD" /\
  isImageLoading (app rome_shown_input_emptied) = false.
Proof.
  assert (reachable keyed rome_shown_input_emptied) as Hr
    by (apply (play_reachable keyed
                 [ Change "Rome"; Submit; Settle 0 rome_guide;
                   Settle 1 (image_response [png "QUJD"]); Change "" ]);
        by_evaluation).
  assert (imageUrl (app rome_shown_input_emptied)
          = Some "data:image/png;base64,QUJD") as Hu by by_evaluation.
  destruct (image_is_data_url_without_placeholder keyed _ Hr) as [H _].
  destruct (H _ Hu) as [Hd Hl].
  repeat apply conj; [ exact Hr | exact Hu | exact Hd | exact Hl ].
Defined.

(** Rome is searched on a host without an API key. *)
Lemma no_request_without_key_witness :
  let w := after keyless [Change "Rome"; Submit] in
  reachable keyless w /\
  key_missing keyless = true /\
  network w = [] /\ inflight w = [].
Proof.
  intros w.
  assert (reachable keyless w) as Hr
    by (apply (play_reachable keyless [Change "Rome"; Submit]); by_evaluation).
  destruct (no_request_without_key keyless w Hr) as [_ H].
  destruct (H eq_refl) as [Hn Hi].
  repeat apply conj; [ exact Hr | reflexivity | exact Hn | exact Hi ].
Defined.

Lemma one_image_request_per_search_witness :
  let w := after keyed rome_then_kyoto in
  reachable keyed w /\
  nth_error (network w) 3 = Some (2, Predict "k" (Str "A kaiseki tray")) /\
  exists j' key text,
    3 = S j' /\ nth_error (network w) j' = Some (2, GenerateContent key text).
Proof.
  intros w.
  assert (reachable keyed w) as Hr
    by (apply (play_reachable keyed rome_then_kyoto); by_evaluation).
  assert (nth_error (network w) 3 = Some (2, Predict "k" (Str "A kaiseki tray")))
    as Hx by by_evaluation.
  destruct (one_image_request_per_search keyed w Hr) as [H _].
  repeat apply conj; [ exact Hr | exact Hx | exact (H _ _ _ _ Hx) ].
Defined.

(** The guide endpoint answered 500. *)
Lemma banner_shows_fixed_messages_witness :
  let w := after keyed [Change "Rome"; Submit; Settle 0 (Responded 500 None)] in
  reachable keyed w /\
  (banner (error (app w)) = None \/
   banner (error (app w)) = Some empty_query_message \/
   banner (error (app w)) = Some guide_failed_message).
Proof.
  intros w.
  assert (reachable keyed w) as Hr
    by (apply (play_reachable keyed
                 [Change "Rome"; Submit; Settle 0 (Responded 500 None)]);
        by_evaluation).
  split; [ exact Hr | exact (banner_shows_fixed_messages keyed w Hr) ].
Defined.

(** Rome's guide and image are on display. *)
Lemma card_lists_every_dish_in_order_witness :
  exists v c items,
    render (app rome_shown_input_emptied) = Normal v /\
    view_card v = Card c /\
    get (guide (app rome_shown_input_emptied)) "mustTryDishes"
      = Normal (Array items) /\
    card_dishes c = map shown_dish items /\
    card_title c = Str "Rome".
Proof.
  assert (exists v c, render (app rome_shown_input_emptied) = Normal v /\
                      view_card v = Card c) as (v & c & Hv & Hc).
  { vm_compute. eexists. eexists. split; reflexivity. }
  destruct (card_lists_every_dish_in_order _ v c Hv Hc)
    as (items & Hd & Hl & Ht & _).
  exists v, c, items. repeat apply conj; try assumption.
  assert (get (guide (app rome_shown_input_emptied)) "locationName"
          = Normal (Str "Rome")) as E by by_evaluation.
  rewrite E in Ht. inversion Ht. reflexivity.
Defined.

(** The guide endpoint answers with [locationName] alone. *)
Lemma unchecked_guide_breaks_render_witness :
  let text := "{" ++ member "locationName" "Rome" ++ "}" in
  let parsed := Object [("locationName", Str "Rome")] in
  let w := after keyed [Change "Rome"; Submit] in
  let w' := handleGetGuide_resume keyed 1 (guide_response text) w in
  JSON.parse text = Some parsed /\
  truthy parsed = true /\
  guide (app w') = parsed /\
  error (app w') = None /\
  render (app w') = Throw TypeError.
Proof.
  intros text parsed w w'.
  assert (text <> "") as Hne by (vm_compute; discriminate).
  assert (forall items, get parsed "mustTryDishes" = Normal (Array items) ->
            ~ Forall (fun d => nullish d = false) items) as Hno
    by (intros items F; vm_compute in F; discriminate F).
  destruct (unchecked_guide_breaks_render keyed w 1 200 (guide_body text) text parsed
              eq_refl eq_refl Hne eq_refl eq_refl Hno) as (Hg & He & Hr).
  repeat apply conj; [ reflexivity | reflexivity | exact Hg | exact He | exact Hr ].
Defined.

(** Rome is typed into a fresh page and both endpoints answer well. *)
Lemma search_succeeds_witness :
  let w := update (setLocation "Rome") initial in
  let text := guide_text "Rome" "Carbonara" "A plate of carbonara" in
  JSON.parse text = Some rome_parsed /\
  guide_conforms rome_parsed = true /\
  exists w',
    run keyed w [ Submit; Settle 0 (guide_response text);
                  Settle 1 (image_response [png "QUJD"]) ] = Some w' /\
    (exists v, render (app w') = Normal v) /\
    guide (app w') = rome_parsed /\
    error (app w') = None /\
    imageUrl (app w') = Some "data:image/png;base64,QUJD" /\
    loading (app w') = false /\
    isImageLoading (app w') = false.
Proof.
  intros w text.
  assert (JSON.parse text = Some rome_parsed) as Hp by by_evaluation.
  assert (guide_conforms rome_parsed = true) as Hc by by_evaluation.
  assert (location (app w) <> "") as Hl by (vm_compute; discriminate).
  assert (text <> "") as Ht by (vm_compute; discriminate).
  assert ("QUJD" <> "") as Hb by discriminate.
  destruct (search_succeeds keyed w text "QUJD" rome_parsed
              (Str "A plate of carbonara")
              eq_refl Hl eq_refl (or_introl eq_refl) Ht Hp Hc eq_refl eq_refl Hb)
    as (w1 & w2 & w' & _ & _ & _ & _ & _ & _ & (v & _ & _ & Hv & _)
        & Hr & Hg & He & Hu & Hlo & Hil & _).
  split; [ exact Hp | ]. split; [ exact Hc | ].
  exists w'. repeat apply conj; try assumption.
  exists v. exact Hv.
Defined.

Lemma guide_request_iff_valid_submit_witness :
  let w := update (setLocation "Rome") initial in
  let w' := handleGetGuide keyed w in
  step keyed w Submit = Some w' /\
  network w' = [(1, GenerateContent "k" (guide_prompt "Rome"))] /\
  location (app w) <> "" /\ key_missing keyed = false.
Proof.
  intros w w'.
  assert (step keyed w Submit = Some w') as Hs by by_evaluation.
  assert (network w'
          = (network w ++ [(1, GenerateContent "k" (guide_prompt "Rome"))])%list)
    as Hn by by_evaluation.
  destruct (proj1 (guide_request_iff_valid_submit keyed w Submit w' 1 "k"
                     (guide_prompt "Rome") Hs) Hn) as (_ & Hl & Hk & _).
  repeat apply conj; [ exact Hs | exact Hn | exact Hl | exact Hk ].
Defined.

Lemma guide_prompt_injective_witness :
  guide_prompt "Rome" = guide_prompt "Rome" /\ "Rome" = "Rome" /\
  guide_prompt "Rome" <> guide_prompt "Kyoto".
Proof.
  repeat apply conj.
  - reflexivity.
  - exact (guide_prompt_injective "Rome" "Rome" eq_refl).
  - intros H. apply guide_prompt_injective in H. discriminate H.
Defined.

(** Rome's guide conforms and is on display. *)
Lemma render_needs_dishes_and_shows_conforming_guide_witness :
  guide_conforms (guide (app rome_shown_input_emptied)) = true /\
  exists v c items,
    render (app rome_shown_input_emptied) = Normal v /\
    view_card v = Card c /\
    get (guide (app rome_shown_input_emptied)) "mustTryDishes"
      = Normal (Array items) /\
    Forall (fun d => nullish d = false) items.
Proof.
  assert (guide_conforms (guide (app rome_shown_input_emptied)) = true) as Hc
    by by_evaluation.
  destruct (render_needs_dishes_and_shows_conforming_guide
              (app rome_shown_input_emptied)) as [Hneeds Hshows].
  destruct (Hshows Hc) as (v & c & Hv & Hcard).
  destruct (Hneeds (ex_intro _ v Hv)) as [F | (items & Hd & Hf)].
  - vm_compute in F. discriminate F.
  - split; [ exact Hc | ].
    exists v, c, items. repeat apply conj; assumption.
Defined.
